(** * Path utilities of nodejs-code-snippets: combineEmpty, toPath,
      superToPath, get, pick and superPick

    A shallow embedding of the wildcard-aware path resolver family and the
    properties its specification states about it.

    Modelling conventions.
    - JavaScript strings are [string]s of 8-bit characters; every path and key
      used below is ASCII, where this coincides with UTF-16 code units.
    - The documents that are queried are JSON-like values ([value]): records
      are dictionaries without a prototype, so a property read sees own
      properties only (inherited members such as [constructor] are outside the
      model).  For the same reason the lookup in the fresh [cache] object of
      [stringToPath] always misses.
    - A loop that the source does not bound ([while (match = re.exec(s))])
      takes a [fuel] argument; [None] means that the fuel ran out. *)

From Stdlib Require Import String Ascii List ZArith Bool Arith Lia.
From Stdlib Require Import DecimalString.
Import ListNotations.
Open Scope string_scope.
Open Scope list_scope.
Set Warnings "-register-all".

(* ================================================================= *)
(** ** JavaScript values *)

Inductive value : Type :=
| VUndefined
| VNull
| VBool (b : bool)
| VNum (n : Z)
| VStr (s : string)
| VArr (items : list value)
| VObj (fields : list (string * value)).

(** [v == null] *)
Definition nullish (v : value) : bool :=
  match v with
  | VUndefined | VNull => true
  | _ => false
  end.

(** [v !== undefined] *)
Definition defined (v : value) : bool :=
  match v with
  | VUndefined => false
  | _ => true
  end.

(** [Array.isArray(v)] *)
Definition isArray (v : value) : bool :=
  match v with
  | VArr _ => true
  | _ => false
  end.

(** Own-property lookup in a record. *)
Fixpoint obj_get (key : string) (fields : list (string * value))
  : option value :=
  match fields with
  | [] => None
  | (k, v) :: rest => if (k =? key)%string then Some v else obj_get key rest
  end.

(** [o[key] = v]: overwrite the property in place, or append it. *)
Fixpoint obj_set (fields : list (string * value)) (key : string) (v : value)
  : list (string * value) :=
  match fields with
  | [] => [(key, v)]
  | (k, w) :: rest =>
      if (k =? key)%string then (k, v) :: rest else (k, w) :: obj_set rest key v
  end.

Definition is_digit (c : ascii) : bool :=
  ((48 <=? nat_of_ascii c) && (nat_of_ascii c <=? 57))%nat.

Fixpoint digits_value (s : string) (acc : nat) : option nat :=
  match s with
  | EmptyString => Some acc
  | String c s' =>
      if is_digit c then digits_value s' (10 * acc + (nat_of_ascii c - 48))
      else None
  end.

(** A property key that is a canonical array index: decimal digits without a
    leading zero. *)
Definition array_index (key : string) : option nat :=
  match key with
  | EmptyString => None
  | String c EmptyString => digits_value key 0
  | String c _ => if (c =? "0")%char then None else digits_value key 0
  end.

(** [v[key]] for a non-nullish [v] (the source guards every read with
    [== null]). *)
Definition prop (v : value) (key : string) : value :=
  match v with
  | VObj fields =>
      match obj_get key fields with
      | Some x => x
      | None => VUndefined
      end
  | VArr items =>
      if (key =? "length")%string then VNum (Z.of_nat (List.length items))
      else match array_index key with
           | Some i => nth i items VUndefined
           | None => VUndefined
           end
  | VStr s =>
      if (key =? "length")%string then VNum (Z.of_nat (String.length s))
      else match array_index key with
           | Some i =>
               match String.get i s with
               | Some c => VStr (String c EmptyString)
               | None => VUndefined
               end
           | None => VUndefined
           end
  | _ => VUndefined
  end.

(** [keys.includes('[]')] *)
Definition includes (keys : list string) (x : string) : bool :=
  existsb (fun k => (k =? x)%string) keys.

(* ================================================================= *)
(** ** combineEmpty (combineEmpty.ts) *)

(** [s.repeat(n)] *)
Fixpoint repeat_string (s : string) (n : nat) : string :=
  match n with
  | 0 => EmptyString
  | S k => (s ++ repeat_string s k)%string
  end.

(** One iteration of [for (const item of arr)]; the state is the pair
    [(result, emptyCount)]. *)
Definition combineEmpty_step (st : list string * nat) (item : string)
  : list string * nat :=
  let (result, emptyCount) := st in
  if (item =? "")%string then (result, emptyCount + 1)
  else if (0 <? emptyCount)%nat
       then (result ++ [(repeat_string "." emptyCount ++ item)%string], 0)
       else (result ++ [item], emptyCount).

Definition combineEmpty (arr : list string) : list string :=
  let (result, emptyCount) := fold_left combineEmpty_step arr ([], 0) in
  if (0 <? emptyCount)%nat
  then result ++ [repeat_string "." emptyCount]
  else result.

(* ================================================================= *)
(** ** toPath and stringToPath (toPath.ts) *)

(** The argument of [toPath], [get] and [pick]: a path string, a pre-split
    array of keys, or [null] / [undefined] (the source tests for both). *)
Inductive path : Type :=
| PathUndefined
| PathNull
| PathStr (s : string)
| PathArr (keys : list string).

Definition backslash : ascii := "\"%char.
Definition dquote : ascii := ascii_of_nat 34.
Definition squote : ascii := "'"%char.

Fixpoint drop (n : nat) (s : string) : string :=
  match n, s with
  | S k, String _ s' => drop k s'
  | _, _ => s
  end.

Fixpoint take_while (p : ascii -> bool) (s : string) : string :=
  match s with
  | EmptyString => EmptyString
  | String c s' => if p c then String c (take_while p s') else EmptyString
  end.

(** [s.startsWith(pre)] *)
Fixpoint starts_with (pre s : string) : bool :=
  match pre with
  | EmptyString => true
  | String a pre' =>
      match s with
      | String b s' => (a =? b)%char && starts_with pre' s'
      | EmptyString => false
      end
  end.

(** [string.replace(/\\(\\)?/g, '$1')]: a backslash is dropped, a doubled
    backslash becomes one. *)
Fixpoint unescape (s : string) : string :=
  match s with
  | EmptyString => EmptyString
  | String c s' =>
      if (c =? backslash)%char then
        match s' with
        | String c2 s'' =>
            if (c2 =? backslash)%char then String backslash (unescape s'')
            else unescape s'
        | EmptyString => EmptyString
        end
      else String c (unescape s')
  end.

(** What the loop reads of a [RegExpExecArray]: [match[0]], [match[1]] and
    [match[3]]. *)
Record RegExpMatch : Type := mkMatch {
  match_0 : string;
  match_1 : option string;
  match_3 : option string
}.

(** [[^.[\]]] *)
Definition name_char (c : ascii) : bool :=
  negb ((c =? ".")%char || (c =? "[")%char || (c =? "]")%char).

(** [.] of a regular expression without the [s] flag. *)
Definition line_terminator (c : ascii) : bool :=
  (nat_of_ascii c =? 10)%nat || (nat_of_ascii c =? 13)%nat.

(** [-?\d+(?:\.\d+)?] at the start of [s], greedy. *)
Definition number_literal (s : string) : option string :=
  let sign := if starts_with "-" s then "-" else "" in
  let s1 := drop (String.length sign) s in
  let int := take_while is_digit s1 in
  if (int =? "")%string then None
  else
    let s2 := drop (String.length int) s1 in
    let frac :=
      match s2 with
      | String c s3 =>
          let d := take_while is_digit s3 in
          if (c =? ".")%char && negb (d =? "")%string
          then String c d else EmptyString
      | EmptyString => EmptyString
      end in
    Some (sign ++ int ++ frac)%string.

(** [((?:(?!\2)[^\\]|\\.)*?)\2\]] after the opening quote [q]: the lazy
    body stops at the first [q] that is followed by a closing bracket; an
    unescaped [q] elsewhere cannot be part of the body.  Returns [match[3]]. *)
Fixpoint quoted_body (q : ascii) (s : string) : option string :=
  match s with
  | EmptyString => None
  | String c s1 =>
      if (c =? q)%char then
        if starts_with "]" s1 then Some EmptyString else None
      else if (c =? backslash)%char then
        match s1 with
        | String c2 s2 =>
            if line_terminator c2 then None
            else option_map (fun b => String c (String c2 b)) (quoted_body q s2)
        | EmptyString => None
        end
      else option_map (String c) (quoted_body q s1)
  end.

(** The bracket alternative of [rePropName]: an opening bracket, then
    either the number of group 1, or a quote character (double or single,
    group 2), the lazy body of group 3 and the same quote again, then a
    closing bracket. *)
Definition bracket_at (s : string) : option RegExpMatch :=
  match s with
  | String c s1 =>
      if (c =? "[")%char then
        match number_literal s1 with
        | Some n =>
            if starts_with "]" (drop (String.length n) s1)
            then Some (mkMatch ("[" ++ n ++ "]")%string (Some n) None)
            else None
        | None =>
            match s1 with
            | String q s2 =>
                if (q =? dquote)%char || (q =? squote)%char then
                  match quoted_body q s2 with
                  | Some body =>
                      let text :=
                        String c (String q (body ++ String q "]"))%string in
                      Some (mkMatch text None (Some body))
                  | None => None
                  end
                else None
            | EmptyString => None
            end
        end
      else None
  | EmptyString => None
  end.

(** [(?=(?:\.|\[\])(?:\.|\[\]|$))] *)
Definition separator_ahead (s : string) : bool :=
  let after (rest : string) :=
    starts_with "." rest || starts_with "[]" rest || (rest =? "")%string in
  if starts_with "." s then after (drop 1 s)
  else if starts_with "[]" s then after (drop 2 s)
  else false.

(** [rePropName] tried at the start of [s]; the alternatives in order. *)
Definition rePropName_at (s : string) : option RegExpMatch :=
  let name := take_while name_char s in
  if negb (name =? "")%string then Some (mkMatch name None None)
  else if starts_with "[]" s then Some (mkMatch "[]" None None)
  else
    match bracket_at s with
    | Some m => Some m
    | None =>
        if separator_ahead s then Some (mkMatch EmptyString None None)
        else None
    end.

(** The leftmost match at or after index [i], where [s] is the input from
    [i] on. *)
Fixpoint search (s : string) (i : nat) : option (RegExpMatch * nat) :=
  match rePropName_at s with
  | Some m => Some (m, i)
  | None =>
      match s with
      | EmptyString => None
      | String _ s' => search s' (S i)
      end
  end.

(** [rePropName.exec(string)] for the global regular expression whose
    [lastIndex] is [lastIndex]: the leftmost match that starts at
    [lastIndex] or later, and its index.  RegExpBuiltinExec then stores the
    end of the match as the new [lastIndex]; [exec] itself never steps over
    a match of length zero (only [replace], [matchAll] and the like do), so
    after such a match [lastIndex] is where it was. *)
Definition exec (s : string) (lastIndex : nat)
  : option (RegExpMatch * nat) :=
  if (String.length s <? lastIndex)%nat then None
  else search (drop lastIndex s) lastIndex.

(** [a || b] on an optional string. *)
Definition js_or (a : option string) (b : string) : string :=
  match a with
  | Some x => if (x =? "")%string then b else x
  | None => b
  end.

(** [while ((match = rePropName.exec(string))) { ... }]: the body pushes
    the key when it is not empty and does not touch [lastIndex], which is
    the end of the last match. *)
Fixpoint stringToPath_loop (fuel : nat) (s : string) (lastIndex : nat)
  (result : list string) : option (list string) :=
  match fuel with
  | 0 => None
  | S fuel' =>
      match exec s lastIndex with
      | None => Some result
      | Some (m, index) =>
          let key :=
            if (match_0 m =? "[]")%string then "[]"
            else js_or (match_1 m) (js_or (match_3 m) "") in
          stringToPath_loop fuel' s (index + String.length (match_0 m))
            (if (key =? "")%string then result else result ++ [key])
      end
  end.

(** [stringToPath(string)]; [None] as the argument is [null] or
    [undefined]. *)
Definition stringToPath (fuel : nat) (str : option string)
  : option (list string) :=
  match str with
  | None => Some []
  | Some s => stringToPath_loop fuel (unescape s) 0 []
  end.

Definition toPath (fuel : nat) (value : path) : option (list string) :=
  match value with
  | PathArr keys => Some keys
  | PathStr s => stringToPath fuel (Some s)
  | PathNull | PathUndefined => stringToPath fuel None
  end.

(* ================================================================= *)
(** ** superToPath (superToPath.ts) *)

(** [value.split('.[].')]: the pieces between the occurrences of the
    separator, found from left to right without overlap. *)
Fixpoint split_wildcard (s cur : string) : list string :=
  match s with
  | EmptyString => [cur]
  | String c1 s1 =>
      match s1 with
      | String c2 (String c3 (String c4 rest)) =>
          if (String c1 (String c2 (String c3 (String c4 EmptyString)))
                =? ".[].")%string
          then cur :: split_wildcard rest EmptyString
          else split_wildcard s1 (cur ++ String c1 EmptyString)%string
      | _ => split_wildcard s1 (cur ++ String c1 EmptyString)%string
      end
  end.

Section SuperToPath.

(** superToPath.ts tokenizes each piece with [toPath] of lodash, which is
    not part of the repository. *)
Variable lodash_toPath : path -> list string.

(** [segments.forEach((segment, index) => ...)] *)
Fixpoint superToPath_forEach (segments : list string) (index len : nat)
  (result : list string) : list string :=
  match segments with
  | [] => result
  | segment :: rest =>
      let result1 :=
        if (segment =? "")%string
        then result ++ combineEmpty [""]
        else result ++ combineEmpty (lodash_toPath (PathStr segment)) in
      let result2 :=
        if (index <? len - 1)%nat then result1 ++ ["[]"] else result1 in
      superToPath_forEach rest (S index) len result2
  end.

Definition superToPath (value : path) : list string :=
  match value with
  | PathArr _ => combineEmpty (lodash_toPath value)
  | PathNull | PathUndefined => []
  | PathStr s =>
      let segments := split_wildcard s EmptyString in
      superToPath_forEach segments 0 (List.length segments) []
  end.

End SuperToPath.

(* ================================================================= *)
(** ** get (get.ts, the index-based resolver) *)

(** [processWildcardGet(current, keys, index)], where [rest] is
    [keys.slice(index)]: the function reads [keys] from [index] on only. *)
Fixpoint processWildcardGet_from (rest : list string) (current : value)
  : value :=
  match rest with
  | [] => VUndefined
  | key :: rest' =>
      if nullish current then VUndefined
      else if negb (key =? "[]")%string then
        match rest' with
        | [] =>
            if defined (prop current key) then VArr [prop current key]
            else VUndefined
        | _ :: _ => processWildcardGet_from rest' (prop current key)
        end
      else
        match current with
        | VArr items =>
            let result :=
              filter defined (map (processWildcardGet_from rest') items) in
            if (0 <? List.length result)%nat then VArr result else VUndefined
        | _ => VUndefined
        end
  end.

Definition processWildcardGet (current : value) (keys : list string)
  (index : nat) : value :=
  processWildcardGet_from (skipn index keys) current.

(** [result.length] of an array. *)
Definition array_length (v : value) : nat :=
  match v with
  | VArr items => List.length items
  | _ => 0
  end.

(** The standard branch of [get]: the [for] loop and the final [return]. *)
Fixpoint get_walk (current : value) (keys : list string)
  (defaultValue : value) : value :=
  match keys with
  | [] => if defined current then current else defaultValue
  | key :: rest =>
      let current' :=
        if negb (nullish current) then prop current key else VUndefined in
      if nullish current' then defaultValue
      else get_walk current' rest defaultValue
  end.

(** [get] once the path is tokenized. *)
Definition get_keys (object : value) (keys : list string)
  (defaultValue : value) : value :=
  if includes keys "[]" then
    let result := processWildcardGet object keys 0 in
    if defined result && (0 <? array_length result)%nat then result
    else if defined defaultValue then defaultValue else VArr []
  else get_walk object keys defaultValue.

(** [get(object, path, defaultValue)]; an omitted default is
    [VUndefined]. *)
Definition get (fuel : nat) (object : value) (p : path)
  (defaultValue : value) : option value :=
  match toPath fuel p with
  | Some keys => Some (get_keys object keys defaultValue)
  | None => None
  end.

(* ================================================================= *)
(** ** pick (pick.ts) *)

(** [processWildcardPath(current, keys, index)] with [rest] the keys from
    [index] on. *)
Fixpoint processWildcardPath_from (rest : list string) (current : value)
  : value :=
  match rest with
  | [] => VUndefined
  | key :: rest' =>
      if nullish current then VUndefined
      else if negb (key =? "[]")%string then
        let nextValue := prop current key in
        match rest' with
        | [] =>
            if defined nextValue then VObj [(key, nextValue)] else VUndefined
        | _ :: _ =>
            let result := processWildcardPath_from rest' nextValue in
            if defined result then VObj [(key, result)] else VUndefined
        end
      else
        match current with
        | VArr items =>
            let result :=
              filter defined (map (processWildcardPath_from rest') items) in
            if (0 <? List.length result)%nat then VArr result else VUndefined
        | _ => VUndefined
        end
  end.

Definition processWildcardPath (current : value) (keys : list string)
  (index : nat) : value :=
  processWildcardPath_from (skipn index keys) current.

(** [while (current != null && index < keys.length)] of the standard
    branch, with [rest] the keys from [index] on; returns [current] and
    [index] after the loop. *)
Fixpoint pick_walk (current : value) (rest : list string) (index : nat)
  : value * nat :=
  match rest with
  | [] => (current, index)
  | key :: rest' =>
      if nullish current then (current, index)
      else pick_walk (prop current key) rest' (S index)
  end.

(** The property that one path assigns in the result, if any. *)
Definition pick_assignment (object : value) (keys : list string)
  : option (string * value) :=
  if includes keys "[]" then
    let rootKey := hd "undefined" keys in
    Some (rootKey, processWildcardPath object keys 0)
  else
    let (current, index) := pick_walk object keys 0 in
    if negb (index =? 0)%nat && (index =? List.length keys)%nat
       && defined current
    then Some (last keys "undefined", current)
    else None.

(** The body of [props.forEach] once the path is tokenized. *)
Definition pick_path (object : value) (result : list (string * value))
  (keys : list string) : list (string * value) :=
  match pick_assignment object keys with
  | Some (key, v) => obj_set result key v
  | None => result
  end.

(** [props.forEach((path) => ...)] *)
Fixpoint pick_forEach (fuel : nat) (object : value) (props : list path)
  (result : list (string * value)) : option (list (string * value)) :=
  match props with
  | [] => Some result
  | p :: rest =>
      match toPath fuel p with
      | Some keys =>
          pick_forEach fuel object rest (pick_path object result keys)
      | None => None
      end
  end.

(** [Array.isArray(paths) ? paths : [paths]] *)
Definition pick_props (paths : path) : list path :=
  match paths with
  | PathArr ps => map PathStr ps
  | _ => [paths]
  end.

Definition pick (fuel : nat) (object : value) (paths : path)
  : option (list (string * value)) :=
  if nullish object then Some []
  else pick_forEach fuel object (pick_props paths) [].

(* ================================================================= *)
(** ** get (get.ts, the variant that accumulates into one array) *)

Module Accumulating.

(** [keys.indexOf(x)]; [None] is [-1]. *)
Fixpoint indexOf (x : string) (keys : list string) : option nat :=
  match keys with
  | [] => None
  | k :: rest =>
      if (k =? x)%string then Some 0 else option_map S (indexOf x rest)
  end.

(** [for (const key of keys) { if (value == null) return;
    value = value[key]; }]: [None] when the loop returns out of the
    function. *)
Fixpoint walk (v : value) (keys : list string) : option value :=
  match keys with
  | [] => Some v
  | key :: rest => if nullish v then None else walk (prop v key) rest
  end.

(** [processWildcardGet(current, keys, result)]; the function pushes into
    the shared array [result], whose new content is returned.  Every
    recursive call is on a strictly shorter [keys], which [n] bounds. *)
Fixpoint processWildcardGet_bounded (n : nat) (current : value)
  (keys : list string) (result : list value) : list value :=
  match n with
  | 0 => result
  | S n' =>
      if nullish current then result
      else
        match indexOf "[]" keys with
        | None =>
            match walk current keys with
            | Some v => if defined v then result ++ [v] else result
            | None => result
            end
        | Some wildcardIndex =>
            let prefixKeys := firstn wildcardIndex keys in
            match walk current prefixKeys with
            | Some (VArr items) =>
                let suffixKeys := skipn (wildcardIndex + 1) keys in
                fold_left
                  (fun acc item =>
                     processWildcardGet_bounded n' item suffixKeys acc)
                  items result
            | _ => result
            end
        end
  end.

Definition processWildcardGet (current : value) (keys : list string)
  (result : list value) : list value :=
  processWildcardGet_bounded (S (List.length keys)) current keys result.

Definition get_keys (object : value) (keys : list string)
  (defaultValue : value) : value :=
  if includes keys "[]" then
    let result := processWildcardGet object keys [] in
    if (0 <? List.length result)%nat then VArr result
    else if defined defaultValue then defaultValue else VArr []
  else get_walk object keys defaultValue.

Definition get (fuel : nat) (object : value) (p : path)
  (defaultValue : value) : option value :=
  match toPath fuel p with
  | Some keys => Some (get_keys object keys defaultValue)
  | None => None
  end.

End Accumulating.

(* ================================================================= *)
(** ** Documents of the test suite (toPath_Get_Pick.test.ts) *)

Definition testObject : value :=
  VObj [("a", VArr [VObj [("b", VArr [VObj [("c", VNum 42)];
                                      VObj [("c", VNum 43)]])];
                    VObj [("b", VArr [VObj [("c", VNum 99)];
                                      VObj [("c", VNum 100)]])]]);
        ("x", VNum 100)].

(* ================================================================= *)
(** ** Vocabulary of the statements *)

(** What [combineEmpty] returns when its loop ends in a given state. *)
Definition combineEmpty_finish (st : list string * nat) : list string :=
  if (0 <? snd st)%nat then fst st ++ [repeat_string "." (snd st)]
  else fst st.

(** The direct nested dereference [s[k1][k2]...[kn]], where reading a
    property of [null] or [undefined] gives [undefined]. *)
Fixpoint dereference (v : value) (keys : list string) : value :=
  match keys with
  | [] => v
  | key :: rest =>
      if nullish v then VUndefined else dereference (prop v key) rest
  end.

(** [pruned resolve items result]: [result] holds, in the order of [items],
    the sub-result of every element that resolves and nothing for the
    others. *)
Inductive pruned (resolve : value -> value)
  : list value -> list value -> Prop :=
| pruned_nil : pruned resolve [] []
| pruned_keep item items result :
    defined (resolve item) = true ->
    pruned resolve items result ->
    pruned resolve (item :: items) (resolve item :: result)
| pruned_drop item items result :
    defined (resolve item) = false ->
    pruned resolve items result ->
    pruned resolve (item :: items) result.

(** The documents of the scenarios. *)
Definition nonArraySource : value :=
  VObj [("a", VObj [("b", VObj [("c", VNum 1)])])].

Definition emptyElementSource : value := VObj [("a", VArr [VObj []])].

Definition pickSource : value :=
  VObj [("a", VArr [VObj [("b", VArr [VObj [("c", VNum 42)];
                                      VObj [("c", VNum 43)]])]])].

(* ================================================================= *)
(** ** superPick and processPaths (pick.ts) *)

(** The decimal numeral of an array index, as a property key. *)
Definition index_key (i : nat) : string :=
  NilEmpty.string_of_uint (Nat.to_uint i).

(** The keys that [for (const key in object)] visits and that pass the
    [hasOwnProperty] test: the keys of a record in their order, the
    indices of an array or of a string.  (JavaScript visits the keys of a
    record that are array indices first; the statements below read the
    result by key, so that the order does not matter to them.) *)
Definition own_keys (v : value) : list string :=
  match v with
  | VObj fields => map fst fields
  | VArr items => map index_key (seq 0 (List.length items))
  | VStr s => map index_key (seq 0 (String.length s))
  | _ => []
  end.

(** [p.path[index] === x] *)
Definition key_is (p : list string) (index : nat) (x : string) : bool :=
  match nth_error p index with
  | Some k => (k =? x)%string
  | None => false
  end.

(** The longest path of [pathArray]. *)
Definition longest (pathArray : list (list string)) : nat :=
  fold_right (fun p n => Nat.max (List.length p) n) 0 pathArray.

(** [processPaths(current, pathArray, index)].  A recursive call is made
    with [index + 1] and only while some path is longer than [index],
    which [n] bounds. *)
Fixpoint processPaths_bounded (n : nat) (current : value)
  (pathArray : list (list string)) (index : nat) : value :=
  match n with
  | 0 => VUndefined
  | S n' =>
      if nullish current then VUndefined
      else
        let validPaths :=
          filter (fun p => (index <? List.length p)%nat) pathArray in
        if (List.length validPaths =? 0)%nat then VUndefined
        else
          let wildcardPaths :=
            filter (fun p => key_is p index "[]") validPaths in
          if (0 <? List.length wildcardPaths)%nat && isArray current then
            match current with
            | VArr items =>
                let result :=
                  filter defined
                    (map (fun item =>
                            processPaths_bounded n' item wildcardPaths
                              (index + 1)) items) in
                if (0 <? List.length result)%nat then VArr result
                else VUndefined
            | _ => VUndefined
            end
          else
            let matchingPaths :=
              filter (fun p =>
                        negb (key_is p index "[]")
                        && (defined (prop current (nth index p ""))
                            || (index =? List.length p - 1)%nat))
                validPaths in
            if (List.length matchingPaths =? 0)%nat then VUndefined
            else
              let result :=
                fold_left
                  (fun result p =>
                     let key := nth index p "" in
                     if (index =? List.length p - 1)%nat then
                       if defined (prop current key)
                       then obj_set result key (prop current key)
                       else result
                     else
                       let subResult :=
                         processPaths_bounded n' (prop current key)
                           matchingPaths (index + 1) in
                       if defined subResult
                       then obj_set result key subResult
                       else result)
                  matchingPaths [] in
              if (0 <? List.length result)%nat then VObj result
              else VUndefined
  end.

Definition processPaths (current : value) (pathArray : list (list string))
  (index : nat) : value :=
  processPaths_bounded (S (longest pathArray - index)) current pathArray
    index.

Section SuperPick.

(** [superToPath] tokenizes with [toPath] of lodash. *)
Variable lodash_toPath : path -> list string.

(** [pathArray.some(p => p.path[0] === key ||
    (p.path[0] === '[]' && Array.isArray(object[key])))] *)
Definition superPick_matches (object : value)
  (pathArray : list (list string)) (key : string) : bool :=
  existsb (fun p => key_is p 0 key
                    || (key_is p 0 "[]" && isArray (prop object key)))
    pathArray.

Definition superPick (object : value) (paths : path)
  : list (string * value) :=
  if nullish object then []
  else
    let pathArray :=
      map (superToPath lodash_toPath) (pick_props paths) in
    fold_left
      (fun result key =>
         if superPick_matches object pathArray key
         then obj_set result key
                (processPaths (prop object key) pathArray 0)
         else obj_set result key VUndefined)
      (own_keys object) [].

End SuperPick.

(* ================================================================= *)
(** ** Vocabulary of further statements *)

(** The segments written one after the other. *)
Definition join_all (segments : list string) : string :=
  fold_right String.append EmptyString segments.

(** What stands for a segment in the output of [combineEmpty]: a dot for
    an empty segment, the segment itself otherwise. *)
Definition dot_for_empty (t : string) : string :=
  if (t =? "")%string then "." else t.

(** The number of segments that are not empty. *)
Definition count_nonempty (arr : list string) : nat :=
  List.length (filter (fun t => negb (t =? "")%string) arr).

Fixpoint has_char (c : ascii) (s : string) : bool :=
  match s with
  | EmptyString => false
  | String c' s' => (c' =? c)%char || has_char c s'
  end.

(** [s] starts with a dot that is directly followed by a dot, by the
    wildcard marker or by the end of the path. *)
Definition stuck_here (s : string) : bool :=
  starts_with "." s && separator_ahead s.


(** The number of wildcard segments of a tokenized path. *)
Definition wildcards (keys : list string) : nat :=
  List.length (filter (fun k => (k =? "[]")%string) keys).

(** [nested n v]: [v] is built from [n] levels of non-empty arrays around
    one-element arrays that each hold one defined leaf. *)
Fixpoint nested (n : nat) (v : value) : Prop :=
  match n with
  | 0 => exists leaf, v = VArr [leaf] /\ defined leaf = true
  | S k => exists x l, v = VArr (x :: l) /\ Forall (nested k) (x :: l)
  end.

(** The leaves of a result of [n] + 1 array levels, from left to right;
    none for a value that is not an array. *)
Fixpoint leaves (n : nat) (v : value) : list value :=
  match v with
  | VArr items =>
      match n with
      | 0 => items
      | S k => flat_map (leaves k) items
      end
  | _ => []
  end.

(* ================================================================= *)
(** * Properties *)

(* ================================================================= *)
(** ** combineEmpty *)

Section CombineEmpty.

Implicit Types (arr pre rest result : list string) (t item : string).

Lemma combineEmpty_unfold arr :
  combineEmpty arr
  = combineEmpty_finish (fold_left combineEmpty_step arr ([], 0)).
Proof.
  unfold combineEmpty, combineEmpty_finish.
  destruct (fold_left combineEmpty_step arr ([], 0)); reflexivity.
Qed.

(** The loop only ever appends to [result]. *)
Lemma combineEmpty_loop_prefix arr : forall result n,
  fold_left combineEmpty_step arr (result, n)
  = (result ++ fst (fold_left combineEmpty_step arr ([], n)),
     snd (fold_left combineEmpty_step arr ([], n))).
Proof.
  induction arr as [|item arr IH]; intros result n; simpl.
  - now rewrite app_nil_r.
  - destruct (item =? "")%string.
    + apply IH.
    + destruct (0 <? n)%nat.
      * rewrite IH.
        rewrite (IH [(repeat_string "." n ++ item)%string]).
        simpl. now rewrite <- app_assoc.
      * rewrite IH. rewrite (IH [item]).
        simpl. now rewrite <- app_assoc.
Qed.

Lemma combineEmpty_loop_empties k : forall result n,
  fold_left combineEmpty_step (repeat "" k) (result, n) = (result, n + k).
Proof.
  induction k as [|k IH]; intros result n; simpl.
  - f_equal. lia.
  - rewrite IH. f_equal. lia.
Qed.

Lemma combineEmpty_step_nonempty result n t :
  t <> "" ->
  combineEmpty_step (result, n) t
  = (result ++ [(repeat_string "." n ++ t)%string], 0).
Proof.
  intros Ht. unfold combineEmpty_step.
  apply String.eqb_neq in Ht. rewrite Ht.
  destruct n as [|n]; reflexivity.
Qed.

(** After a segment that is not empty the counter is zero. *)
Lemma combineEmpty_loop_closed pre :
  last pre "-" <> "" ->
  snd (fold_left combineEmpty_step pre ([], 0)) = 0.
Proof.
  destruct pre as [|x pre'] using rev_ind; [reflexivity|].
  rewrite last_last. intros Ht.
  rewrite fold_left_app. cbn [fold_left].
  destruct (fold_left combineEmpty_step pre' ([], 0)) as [r n].
  now rewrite combineEmpty_step_nonempty.
Qed.

Lemma combineEmpty_app_closed pre arr :
  last pre "-" <> "" ->
  combineEmpty (pre ++ arr) = combineEmpty pre ++ combineEmpty arr.
Proof.
  intros Hpre. rewrite !combineEmpty_unfold, fold_left_app.
  pose proof (combineEmpty_loop_closed pre Hpre) as Hn.
  destruct (fold_left combineEmpty_step pre ([], 0)) as [r n].
  simpl in Hn. subst n.
  rewrite combineEmpty_loop_prefix.
  unfold combineEmpty_finish; simpl.
  destruct (0 <? snd (fold_left combineEmpty_step arr ([], 0)))%nat;
    now rewrite ?app_assoc.
Qed.

Lemma combineEmpty_run n t rest :
  t <> "" ->
  combineEmpty (repeat "" n ++ t :: rest)
  = (repeat_string "." n ++ t)%string :: combineEmpty rest.
Proof.
  intros Ht. rewrite !combineEmpty_unfold, fold_left_app.
  rewrite combineEmpty_loop_empties. cbn [fold_left].
  rewrite combineEmpty_step_nonempty by assumption.
  rewrite combineEmpty_loop_prefix.
  unfold combineEmpty_finish; simpl.
  destruct (0 <? snd (fold_left combineEmpty_step rest ([], 0)))%nat;
    reflexivity.
Qed.

Lemma combineEmpty_trailing n :
  combineEmpty (repeat "" n)
  = if (n =? 0)%nat then [] else [repeat_string "." n].
Proof.
  rewrite combineEmpty_unfold, combineEmpty_loop_empties.
  destruct n; reflexivity.
Qed.

Lemma repeat_string_dot_nonempty n t :
  (0 < n \/ t <> "") -> (repeat_string "." n ++ t)%string <> "".
Proof.
  destruct n as [|n]; simpl.
  - intros [H|H]; [lia | exact H].
  - discriminate.
Qed.

Lemma combineEmpty_no_empty arr :
  Forall (fun t => t <> "") arr -> combineEmpty arr = arr.
Proof.
  induction 1 as [|t rest Ht _ IH]; [reflexivity|].
  pose proof (combineEmpty_run 0 t rest Ht) as E.
  cbn [repeat app repeat_string String.append] in E.
  rewrite E. now rewrite IH.
Qed.

Lemma combineEmpty_step_output st item :
  Forall (fun t => t <> "") (fst st) ->
  Forall (fun t => t <> "") (fst (combineEmpty_step st item)).
Proof.
  destruct st as [r n]. unfold combineEmpty_step. simpl. intros Hr.
  destruct (item =? "")%string eqn:E; [exact Hr|].
  apply String.eqb_neq in E.
  destruct (0 <? n)%nat; simpl; apply Forall_app; split; auto;
    constructor; auto.
  apply repeat_string_dot_nonempty. now right.
Qed.

Lemma combineEmpty_loop_output arr : forall st,
  Forall (fun t => t <> "") (fst st) ->
  Forall (fun t => t <> "") (fst (fold_left combineEmpty_step arr st)).
Proof.
  induction arr as [|item arr IH]; intros st Hst; simpl; [exact Hst|].
  apply IH, combineEmpty_step_output, Hst.
Qed.

Lemma combineEmpty_output arr :
  Forall (fun t => t <> "") (combineEmpty arr).
Proof.
  rewrite combineEmpty_unfold.
  pose proof (combineEmpty_loop_output arr ([], 0) (Forall_nil _)) as H.
  unfold combineEmpty_finish.
  destruct (fold_left combineEmpty_step arr ([], 0)) as [r n]; simpl in *.
  destruct (0 <? n)%nat eqn:E; [|exact H].
  apply Nat.ltb_lt in E.
  apply Forall_app; split; [exact H|]. constructor; [|constructor].
  destruct n as [|n]; [lia | discriminate].
Qed.

End CombineEmpty.

(** C3: every maximal run of [n] empty segments followed by a non-empty
    segment [t] becomes the one segment of [n] dots followed by [t]; a
    segment that no empty one precedes is emitted unchanged; a trailing run
    of [n] empties becomes one segment of [n] dots; and the four examples
    of the specification evaluate as stated.  A run is maximal when the
    segments before it ([pre]) are none or end in a non-empty one. *)
Theorem combineEmpty_coalesces_runs :
  (forall pre n t rest,
      t <> "" -> last pre "-" <> "" ->
      combineEmpty (pre ++ repeat "" n ++ t :: rest)
      = combineEmpty pre
        ++ (repeat_string "." n ++ t)%string :: combineEmpty rest)
  /\ (forall pre t rest,
      t <> "" -> last pre "-" <> "" ->
      combineEmpty (pre ++ t :: rest)
      = combineEmpty pre ++ t :: combineEmpty rest)
  /\ (forall pre n,
      last pre "-" <> "" ->
      combineEmpty (pre ++ repeat "" n)
      = combineEmpty pre
        ++ (if (n =? 0)%nat then [] else [repeat_string "." n]))
  /\ combineEmpty ["a"; ""; ""; "c"] = ["a"; "..c"]
  /\ combineEmpty [""] = ["."]
  /\ combineEmpty [""; ""] = [".."]
  /\ combineEmpty [] = [].
Proof.
  repeat split; try reflexivity.
  - intros pre n t rest Ht Hpre.
    rewrite combineEmpty_app_closed by assumption.
    now rewrite combineEmpty_run.
  - intros pre t rest Ht Hpre.
    rewrite combineEmpty_app_closed by assumption.
    pose proof (combineEmpty_run 0 t rest Ht) as E.
    cbn [repeat app repeat_string String.append] in E. now rewrite E.
  - intros pre n Hpre.
    rewrite combineEmpty_app_closed by assumption.
    now rewrite combineEmpty_trailing.
Qed.

Lemma combineEmpty_coalesces_runs_witness :
  "c" <> "" /\ last ["a"] "-" <> ""
  /\ combineEmpty (["a"] ++ repeat "" 2 ++ "c" :: [""; "d"; ""])
     = combineEmpty ["a"]
       ++ (repeat_string "." 2 ++ "c")%string :: combineEmpty [""; "d"; ""].
Proof.
  split; [discriminate|]. split; [discriminate|].
  apply (proj1 combineEmpty_coalesces_runs); discriminate.
Defined.

(** C10: no segment of the output of [combineEmpty] is the empty string, and
    [combineEmpty] is idempotent. *)
Theorem combineEmpty_idempotent :
  forall xs,
    Forall (fun t => t <> "") (combineEmpty xs)
    /\ combineEmpty (combineEmpty xs) = combineEmpty xs.
Proof.
  intros xs. split.
  - apply combineEmpty_output.
  - apply combineEmpty_no_empty, combineEmpty_output.
Qed.

(* ================================================================= *)
(** ** toPath *)

Section Tokenizer.

Lemma stringToPath_loop_step fuel s lastIndex result :
  stringToPath_loop (S fuel) s lastIndex result
  = match exec s lastIndex with
    | None => Some result
    | Some (m, index) =>
        let key :=
          if (match_0 m =? "[]")%string then "[]"
          else js_or (match_1 m) (js_or (match_3 m) "") in
        stringToPath_loop fuel s (index + String.length (match_0 m))
          (if (key =? "")%string then result else result ++ [key])
    end.
Proof. reflexivity. Qed.

(** A match of length zero at [lastIndex] leaves [lastIndex] unchanged, so
    the next call of [exec] finds it again: the loop never ends. *)
Lemma stringToPath_loop_stuck s lastIndex m :
  exec s lastIndex = Some (m, lastIndex) ->
  match_0 m = "" ->
  forall fuel result, stringToPath_loop fuel s lastIndex result = None.
Proof.
  intros Hexec Hlen fuel.
  induction fuel as [|fuel IH]; intros result; [reflexivity|].
  rewrite stringToPath_loop_step, Hexec, Hlen.
  cbn [String.length]. rewrite Nat.add_0_r. apply IH.
Qed.

(** More fuel does not change a result. *)
Lemma stringToPath_loop_mono fuel : forall s lastIndex result keys,
  stringToPath_loop fuel s lastIndex result = Some keys ->
  forall fuel', fuel <= fuel' ->
  stringToPath_loop fuel' s lastIndex result = Some keys.
Proof.
  induction fuel as [|fuel IH]; intros s lastIndex result keys H fuel' Hle;
    [discriminate|].
  destruct fuel' as [|fuel']; [lia|].
  rewrite stringToPath_loop_step in *.
  destruct (exec s lastIndex) as [[m index]|]; [|exact H].
  eapply IH; [exact H | lia].
Qed.

Lemma toPath_mono fuel p keys :
  toPath fuel p = Some keys ->
  forall fuel', fuel <= fuel' -> toPath fuel' p = Some keys.
Proof.
  destruct p; simpl; auto.
  intros H fuel' Hle. eapply stringToPath_loop_mono; eauto.
Qed.

(** The loop pushes a key only [if (key)]. *)
Lemma stringToPath_loop_keys fuel : forall s lastIndex result keys,
  Forall (fun t => t <> "") result ->
  stringToPath_loop fuel s lastIndex result = Some keys ->
  Forall (fun t => t <> "") keys.
Proof.
  induction fuel as [|fuel IH]; intros s lastIndex result keys Hres H;
    [discriminate|].
  rewrite stringToPath_loop_step in H.
  destruct (exec s lastIndex) as [[m index]|].
  - cbv zeta in H. eapply IH; [|exact H].
    match goal with
    | |- context [if (?k =? "")%string then _ else _] =>
        destruct (String.eqb_spec k "") as [E|E]
    end; [exact Hres|].
    apply Forall_app; split; [exact Hres|]. constructor; auto.
  - now inversion H; subst.
Qed.

Lemma toPath_string_keys fuel s keys :
  toPath fuel (PathStr s) = Some keys -> Forall (fun t => t <> "") keys.
Proof.
  simpl. apply stringToPath_loop_keys. constructor.
Qed.

(** [null] and [undefined] tokenize to no segment at all. *)
Lemma toPath_null fuel :
  toPath fuel PathNull = Some [] /\ toPath fuel PathUndefined = Some [].
Proof. split; reflexivity. Qed.

Lemma superToPath_null lodash_toPath :
  superToPath lodash_toPath PathNull = []
  /\ superToPath lodash_toPath PathUndefined = [].
Proof. split; reflexivity. Qed.

(** A plain property name is matched by the first alternative, which sets
    neither [match[1]] nor [match[3]]: the loop drops it. *)
Lemma toPath_plain_names fuel :
  toPath (4 + fuel) (PathStr "a.b.c") = Some [].
Proof. reflexivity. Qed.

(** Keys written in brackets are kept. *)
Lemma toPath_bracketed fuel :
  toPath (6 + fuel) (PathStr "['a'][]['b'][0]['c']")
  = Some ["a"; "[]"; "b"; "0"; "c"].
Proof. reflexivity. Qed.

(** A dot that is followed by the wildcard marker, by another dot or by
    the end of the path is where [rePropName] matches the empty string. *)
Lemma toPath_dot_wildcard_stuck fuel rest :
  toPath fuel (PathStr ("a.[]" ++ rest)) = None.
Proof.
  destruct fuel as [|fuel]; [reflexivity|].
  change (toPath (S fuel) (PathStr ("a.[]" ++ rest)))
    with (stringToPath_loop (S fuel) ("a.[]" ++ unescape rest) 0 []).
  rewrite stringToPath_loop_step.
  change (exec ("a.[]" ++ unescape rest) 0)
    with (Some (mkMatch "a" None None, 0)).
  cbv zeta. cbn [match_0 match_1 match_3 js_or].
  change (0 + String.length "a") with 1.
  eapply stringToPath_loop_stuck with (m := mkMatch "" None None);
    reflexivity.
Qed.

End Tokenizer.

(** C8: [combineEmpty] returns a sequence without empty segments
    unchanged; hence it returns the tokenization of a path unchanged when
    that holds no empty segment, which is the case for every path string
    that [toPath] tokenizes. *)
Theorem combineEmpty_identity_without_empty :
  (forall xs, Forall (fun t => t <> "") xs -> combineEmpty xs = xs)
  /\ (forall fuel p keys,
        toPath fuel p = Some keys ->
        Forall (fun t => t <> "") keys ->
        combineEmpty keys = keys)
  /\ (forall fuel s keys,
        toPath fuel (PathStr s) = Some keys -> combineEmpty keys = keys).
Proof.
  split; [exact combineEmpty_no_empty|]. split.
  - intros fuel p keys _ Hkeys. now apply combineEmpty_no_empty.
  - intros fuel s keys H.
    eapply combineEmpty_no_empty, toPath_string_keys, H.
Qed.

Lemma combineEmpty_identity_without_empty_witness :
  toPath 6 (PathStr "['a'][]['b'][0]['c']") = Some ["a"; "[]"; "b"; "0"; "c"]
  /\ Forall (fun t => t <> "") ["a"; "[]"; "b"; "0"; "c"]
  /\ combineEmpty ["a"; "[]"; "b"; "0"; "c"] = ["a"; "[]"; "b"; "0"; "c"].
Proof.
  split; [reflexivity|].
  split; [repeat constructor; discriminate|].
  apply (proj1 (proj2 combineEmpty_identity_without_empty)
           6 (PathStr "['a'][]['b'][0]['c']")).
  - reflexivity.
  - repeat constructor; discriminate.
Defined.

(** C7: [null] and [undefined] tokenize to the empty sequence.  On
    [a.[].[].c], however, [toPath] never returns, whatever the fuel: after
    the name [a] the regular expression matches the empty string at the
    dot, and the loop calls [exec] at that index again and again.
    [superToPath] cuts the same path into the two pieces [a] and [[].c]
    only, so it inserts a single marker itself. *)
Theorem toPath_consecutive_wildcards :
  (forall fuel,
      toPath fuel PathNull = Some [] /\ toPath fuel PathUndefined = Some [])
  /\ (forall fuel, toPath fuel (PathStr "a.[].[].c") = None)
  /\ (forall lodash_toPath,
        superToPath lodash_toPath (PathStr "a.[].[].c")
        = combineEmpty (lodash_toPath (PathStr "a"))
          ++ "[]" :: combineEmpty (lodash_toPath (PathStr "[].c"))).
Proof.
  split; [exact toPath_null|]. split.
  - intros fuel. apply (toPath_dot_wildcard_stuck fuel ".[].c").
  - intros L. unfold superToPath.
    change (split_wildcard "a.[].[].c" "") with ["a"; "[].c"].
    cbn [superToPath_forEach List.length String.eqb Ascii.eqb Bool.eqb
         Nat.ltb Nat.leb Nat.sub app].
    now rewrite <- app_assoc.
Qed.

(* ================================================================= *)
(** ** get *)

Section Get.

Implicit Types (current object item : value) (keys rest pre post : list string).

Lemma skipn_nth_cons keys : forall index,
  index < List.length keys ->
  skipn index keys = nth index keys "" :: skipn (S index) keys.
Proof.
  induction keys as [|k keys IH]; intros [|index] H; simpl in *;
    try lia; [reflexivity|].
  apply IH. lia.
Qed.

Lemma skipn_S_nil keys index :
  index < List.length keys ->
  (skipn (S index) keys = [] <-> index = List.length keys - 1).
Proof.
  intros H. split.
  - intros E. apply (f_equal (@List.length string)) in E.
    rewrite length_skipn in E. simpl in E. lia.
  - intros ->. apply skipn_all2. lia.
Qed.

(** [processWildcardGet] obeys the recursion of the source, stated with
    [keys] and [index]. *)
Lemma processWildcardGet_eq current keys index :
  processWildcardGet current keys index
  = if nullish current || (List.length keys <=? index)%nat then VUndefined
    else
      let key := nth index keys "" in
      if negb (key =? "[]")%string then
        if (index =? List.length keys - 1)%nat then
          if defined (prop current key) then VArr [prop current key]
          else VUndefined
        else processWildcardGet (prop current key) keys (index + 1)
      else
        match current with
        | VArr items =>
            let result :=
              filter defined
                (map (fun item => processWildcardGet item keys (index + 1))
                   items) in
            if (0 <? List.length result)%nat then VArr result
            else VUndefined
        | _ => VUndefined
        end.
Proof.
  unfold processWildcardGet.
  destruct (Nat.leb_spec (List.length keys) index) as [Hle|Hlt].
  - rewrite skipn_all2 by lia. now rewrite orb_true_r.
  - rewrite orb_false_r, Nat.add_1_r.
    rewrite (skipn_nth_cons keys index Hlt).
    cbn [processWildcardGet_from].
    destruct (nullish current); [reflexivity|]. cbv zeta.
    destruct (negb (nth index keys "" =? "[]")%string); [|reflexivity].
    pose proof (skipn_S_nil keys index Hlt) as Hnil.
    destruct (skipn (S index) keys) as [|k' rest'] eqn:E.
    + destruct (Nat.eqb_spec index (List.length keys - 1)) as [Hi|Hi];
        [reflexivity|].
      destruct Hi. now apply Hnil.
    + destruct (Nat.eqb_spec index (List.length keys - 1)) as [Hi|Hi];
        [|reflexivity].
      apply Hnil in Hi. discriminate.
Qed.

Lemma processWildcardGet_from_nullish rest current :
  nullish current = true -> processWildcardGet_from rest current = VUndefined.
Proof. intros H. destruct rest; simpl; [reflexivity | now rewrite H]. Qed.

Lemma includes_cons keys key x :
  includes (key :: keys) x = (key =? x)%string || includes keys x.
Proof. reflexivity. Qed.

Lemma includes_app pre post x :
  includes (pre ++ post) x = includes pre x || includes post x.
Proof. unfold includes. apply existsb_app. Qed.

(** Along plain keys the resolver dereferences, and wraps a defined leaf
    into a one-element array. *)
Lemma processWildcardGet_from_plain post : forall current,
  post <> [] ->
  includes post "[]" = false ->
  processWildcardGet_from post current
  = if defined (dereference current post)
    then VArr [dereference current post] else VUndefined.
Proof.
  induction post as [|key post IH]; intros current Hne Hplain;
    [contradiction|].
  rewrite includes_cons in Hplain. apply orb_false_elim in Hplain.
  destruct Hplain as [Hkey Hpost].
  cbn [processWildcardGet_from dereference]. rewrite Hkey.
  destruct (nullish current); [reflexivity|]. cbn [negb].
  destruct post as [|key' post']; [reflexivity|].
  apply IH; [discriminate | exact Hpost].
Qed.

Lemma processWildcardGet_from_prefix pre : forall current rest,
  rest <> [] ->
  includes pre "[]" = false ->
  processWildcardGet_from (pre ++ rest) current
  = processWildcardGet_from rest (dereference current pre).
Proof.
  induction pre as [|key pre IH]; intros current rest Hne Hplain;
    [reflexivity|].
  rewrite includes_cons in Hplain. apply orb_false_elim in Hplain.
  destruct Hplain as [Hkey Hpre].
  cbn [app processWildcardGet_from dereference]. rewrite Hkey.
  destruct (nullish current) eqn:Hnull.
  - symmetry. now apply processWildcardGet_from_nullish.
  - cbn [negb]. destruct (pre ++ rest) as [|k' r'] eqn:E.
    + apply app_eq_nil in E. destruct E as [_ E]. contradiction.
    + rewrite <- E. now apply IH.
Qed.

Lemma dereference_nullish keys current :
  keys <> [] -> nullish current = true ->
  dereference current keys = VUndefined.
Proof.
  destruct keys; [contradiction|]. intros _ H. simpl. now rewrite H.
Qed.

(** The standard branch is the nested dereference, with the default in
    place of a value that is [null] or absent. *)
Lemma get_walk_dereference keys : forall current d,
  keys <> [] ->
  get_walk current keys d
  = if nullish (dereference current keys) then d
    else dereference current keys.
Proof.
  induction keys as [|key keys IH]; intros current d Hne; [contradiction|].
  cbn [get_walk dereference].
  destruct (nullish current) eqn:Hnull; [reflexivity|]. cbn [negb].
  destruct keys as [|key' keys'].
  - cbn [get_walk dereference].
    destruct (prop current key); reflexivity.
  - destruct (nullish (prop current key)) eqn:Hp.
    + rewrite dereference_nullish by (assumption || discriminate).
      reflexivity.
    + apply IH. discriminate.
Qed.

Lemma get_tokenized fuel object p keys d :
  toPath fuel p = Some keys ->
  get fuel object p d = Some (get_keys object keys d).
Proof. unfold get. now intros ->. Qed.

(** When the wildcard resolution has no result, [get] answers with the
    default, or with an empty array when there is none. *)
Lemma get_wildcard_no_result fuel object p keys d :
  toPath fuel p = Some keys ->
  includes keys "[]" = true ->
  processWildcardGet object keys 0 = VUndefined ->
  get fuel object p d = Some (if defined d then d else VArr []).
Proof.
  intros Hp Hw Hres. rewrite (get_tokenized _ _ _ _ _ Hp).
  unfold get_keys. now rewrite Hw, Hres.
Qed.

(** A wildcard over a value that is not an array has no result. *)
Lemma processWildcardGet_non_array pre post object :
  includes pre "[]" = false ->
  isArray (dereference object pre) = false ->
  processWildcardGet object (pre ++ "[]" :: post) 0 = VUndefined.
Proof.
  intros Hpre Harr. unfold processWildcardGet. cbn [skipn].
  rewrite processWildcardGet_from_prefix by (discriminate || assumption).
  cbn [processWildcardGet_from String.eqb Ascii.eqb Bool.eqb negb].
  destruct (dereference object pre); try discriminate;
    destruct (nullish _); reflexivity.
Qed.

End Get.

Section GetNesting.

Implicit Types (items : list value) (keys pre post : list string).

Lemma filter_defined_wrap (f : value -> value) items :
  filter defined
    (map (fun item =>
            if defined (f item) then VArr [f item] else VUndefined) items)
  = map (fun leaf => VArr [leaf]) (filter defined (map f items)).
Proof.
  induction items as [|item items IH]; [reflexivity|].
  cbn [map filter]. destruct (defined (f item)) eqn:E; cbn [defined map].
  - now rewrite IH.
  - exact IH.
Qed.

Lemma filter_defined_length (f : value -> value) items :
  List.length (filter defined (map f items))
  = List.length (filter (fun item => defined (f item)) items).
Proof.
  induction items as [|item items IH]; [reflexivity|].
  cbn [map filter]. destruct (defined (f item)); cbn [List.length];
    now rewrite IH.
Qed.

Lemma filter_defined_pruned (f : value -> value) items :
  pruned f items (filter defined (map f items)).
Proof.
  induction items as [|item items IH]; [constructor|].
  cbn [map filter]. destruct (defined (f item)) eqn:E.
  - now apply pruned_keep.
  - now apply pruned_drop.
Qed.

Lemma filter_all {A} (p : A -> bool) (l : list A) :
  List.length (filter p l) = List.length l -> filter p l = l.
Proof.
  induction l as [|x l IH]; [reflexivity|].
  cbn [filter]. destruct (p x); cbn [List.length]; intros H.
  - f_equal. apply IH. lia.
  - pose proof (filter_length_le p l). lia.
Qed.

Lemma get_plain_path fuel object p keys d :
  toPath fuel p = Some keys ->
  keys <> [] ->
  includes keys "[]" = false ->
  get fuel object p d
  = Some (if nullish (dereference object keys) then d
          else dereference object keys).
Proof.
  intros Hp Hne Hplain. rewrite (get_tokenized _ _ _ _ _ Hp).
  unfold get_keys. rewrite Hplain. now rewrite get_walk_dereference.
Qed.

Lemma get_one_wildcard fuel object p pre post items d :
  toPath fuel p = Some (pre ++ "[]" :: post) ->
  includes pre "[]" = false ->
  includes post "[]" = false ->
  post <> [] ->
  dereference object pre = VArr items ->
  filter defined (map (fun item => dereference item post) items) <> [] ->
  get fuel object p d
  = Some (VArr (map (fun leaf => VArr [leaf])
                  (filter defined
                     (map (fun item => dereference item post) items)))).
Proof.
  intros Hp Hpre Hpost Hne Hitems Hleaves.
  rewrite (get_tokenized _ _ _ _ _ Hp). unfold get_keys.
  rewrite includes_app, includes_cons. cbn [String.eqb Ascii.eqb Bool.eqb].
  rewrite orb_true_r.
  unfold processWildcardGet. cbn [skipn].
  rewrite processWildcardGet_from_prefix by (discriminate || assumption).
  rewrite Hitems.
  cbn [processWildcardGet_from nullish String.eqb Ascii.eqb Bool.eqb negb].
  rewrite (map_ext _ _ (fun item =>
             processWildcardGet_from_plain post item Hne Hpost)).
  rewrite filter_defined_wrap, length_map.
  destruct (filter defined (map (fun item => dereference item post) items))
    as [|leaf leaves]; [contradiction|].
  reflexivity.
Qed.

End GetNesting.

(** C1, on a path with a single wildcard and on the scenario: the result
    for [a.[].b.0.c] is [[[42],[99]]], one array per element around each
    leaf, not the array [[42,99]] of the leaves; for [a.[].b.[].c] it is
    [[[[42],[43]],[[99],[100]]]], not [[[42,43],[99,100]]]. *)
Lemma get_nesting_counterexample :
  get 0 testObject (PathArr ["a"; "[]"; "b"; "0"; "c"]) VUndefined
  = Some (VArr [VArr [VNum 42]; VArr [VNum 99]])
  /\ get 0 testObject (PathArr ["a"; "[]"; "b"; "0"; "c"]) VUndefined
     <> Some (VArr [VNum 42; VNum 99])
  /\ get 0 testObject (PathArr ["a"; "[]"; "b"; "[]"; "c"]) VUndefined
     = Some (VArr [VArr [VArr [VNum 42]; VArr [VNum 43]];
                   VArr [VArr [VNum 99]; VArr [VNum 100]]])
  /\ get 0 testObject (PathArr ["a"; "[]"; "b"; "[]"; "c"]) VUndefined
     <> Some (VArr [VArr [VNum 42; VNum 43]; VArr [VNum 99; VNum 100]]).
Proof.
  repeat split; try reflexivity; vm_compute; discriminate.
Qed.

(** C1 as amended: a path without wildcard yields the bare leaf value; a
    path with exactly one wildcard that is followed by plain segments
    yields, for the elements that resolve and in their order, one
    one-element array around each leaf value; so [a.[].b.0.c] on the test
    document gives [[[42],[99]]]. *)
Theorem get_nesting_up_to_one_wildcard :
  (forall fuel object p keys d,
      toPath fuel p = Some keys ->
      keys <> [] ->
      includes keys "[]" = false ->
      nullish (dereference object keys) = false ->
      get fuel object p d = Some (dereference object keys))
  /\ (forall fuel object p pre post items d,
      toPath fuel p = Some (pre ++ "[]" :: post) ->
      includes pre "[]" = false ->
      includes post "[]" = false ->
      post <> [] ->
      dereference object pre = VArr items ->
      filter defined (map (fun item => dereference item post) items) <> [] ->
      get fuel object p d
      = Some (VArr (map (fun leaf => VArr [leaf])
                      (filter defined
                         (map (fun item => dereference item post) items)))))
  /\ get 0 testObject (PathArr ["a"; "[]"; "b"; "0"; "c"]) VUndefined
     = Some (VArr [VArr [VNum 42]; VArr [VNum 99]]).
Proof.
  split; [|split; [exact get_one_wildcard | reflexivity]].
  intros fuel object p keys d Hp Hne Hplain Hleaf.
  rewrite (get_plain_path _ _ _ _ _ Hp Hne Hplain). now rewrite Hleaf.
Qed.

Lemma get_nesting_up_to_one_wildcard_witness :
  get 6 testObject (PathStr "['a'][]['b'][0]['c']") (VStr "none")
  = Some (VArr (map (fun leaf => VArr [leaf]) [VNum 42; VNum 99]))
  /\ get 0 testObject (PathArr ["a"; "0"; "b"; "1"; "c"]) (VStr "none")
     = Some (VNum 43).
Proof.
  split.
  - apply (proj1 (proj2 get_nesting_up_to_one_wildcard)
             6 testObject (PathStr "['a'][]['b'][0]['c']")
             ["a"] ["b"; "0"; "c"]
             [VObj [("b", VArr [VObj [("c", VNum 42)];
                                VObj [("c", VNum 43)]])];
              VObj [("b", VArr [VObj [("c", VNum 99)];
                                VObj [("c", VNum 100)]])]]
             (VStr "none")); try reflexivity; vm_compute; discriminate.
  - apply (proj1 get_nesting_up_to_one_wildcard
             0 testObject (PathArr ["a"; "0"; "b"; "1"; "c"])
             ["a"; "0"; "b"; "1"; "c"] (VStr "none"));
      try reflexivity; discriminate.
Defined.

(** C5, with no resolving element: over the one-element array [[{}]] the
    wildcard level of [[].c] has K = 0 resolving elements, and its result
    is [undefined], not a sequence of no elements. *)
Lemma wildcard_level_counterexample :
  List.length
    (filter (fun item => defined (processWildcardGet item ["[]"; "c"] 1))
       [VObj []]) = 0
  /\ processWildcardGet (VArr [VObj []]) ["[]"; "c"] 0 = VUndefined
  /\ ~ (exists result,
          processWildcardGet (VArr [VObj []]) ["[]"; "c"] 0 = VArr result
          /\ List.length result = 0).
Proof.
  split; [reflexivity|]. split; [reflexivity|].
  intros [result [H _]]. vm_compute in H. discriminate.
Qed.

(** C5 as amended: at a wildcard segment over an array of N elements of
    which K resolve for the rest of the path, with K at least 1, the result
    of that level is an array of exactly K elements: the sub-results of the
    resolving elements in the order of the source, with nothing in the
    place of the others; when all N resolve these are the N sub-results in
    order.  With K = 0 the level has no result ([undefined]). *)
Theorem wildcard_level_keeps_resolving_elements :
  forall keys index items,
    nth_error keys index = Some "[]" ->
    let resolve := fun item => processWildcardGet item keys (index + 1) in
    let K :=
      List.length (filter (fun item => defined (resolve item)) items) in
    (1 <= K ->
     exists result,
       processWildcardGet (VArr items) keys index = VArr result
       /\ List.length result = K
       /\ pruned resolve items result)
    /\ (1 <= K -> K = List.length items ->
        processWildcardGet (VArr items) keys index
        = VArr (map resolve items))
    /\ (K = 0 -> processWildcardGet (VArr items) keys index = VUndefined).
Proof.
  intros keys index items Hkey resolve K.
  assert (Hlt : index < List.length keys)
    by (apply nth_error_Some; rewrite Hkey; discriminate).
  assert (Hnth : nth index keys "" = "[]")
    by (now apply nth_error_nth).
  assert (Hlevel : processWildcardGet (VArr items) keys index
                   = if (0 <? K)%nat
                     then VArr (filter defined (map resolve items))
                     else VUndefined).
  { rewrite processWildcardGet_eq. cbn [nullish orb].
    destruct (Nat.leb_spec (List.length keys) index); [lia|].
    cbv zeta. rewrite Hnth. cbn [String.eqb Ascii.eqb Bool.eqb negb].
    fold resolve. now rewrite filter_defined_length. }
  rewrite Hlevel. repeat split.
  - intros HK. exists (filter defined (map resolve items)).
    destruct (Nat.ltb_spec 0 K); [|lia].
    split; [reflexivity|]. split.
    + apply filter_defined_length.
    + apply filter_defined_pruned.
  - intros HK HN. destruct (Nat.ltb_spec 0 K); [|lia]. f_equal.
    apply filter_all. rewrite filter_defined_length, length_map. exact HN.
  - intros HK. now rewrite HK.
Qed.

Lemma wildcard_level_keeps_resolving_elements_witness :
  exists result,
    processWildcardGet
      (VArr [VObj [("c", VNum 1)]; VObj []; VObj [("c", VNum 3)]])
      ["a"; "[]"; "c"] 1 = VArr result
    /\ List.length result = 2
    /\ pruned (fun item => processWildcardGet item ["a"; "[]"; "c"] 2)
         [VObj [("c", VNum 1)]; VObj []; VObj [("c", VNum 3)]] result.
Proof.
  apply (proj1 (wildcard_level_keeps_resolving_elements
                  ["a"; "[]"; "c"] 1
                  [VObj [("c", VNum 1)]; VObj []; VObj [("c", VNum 3)]]
                  eq_refl)).
  vm_compute. lia.
Defined.

(** C4, on its two scenarios: with the path string [a.[].b.c] the call of
    [get] never returns, because [toPath] does not; given the same path as
    the array of its segments, [get] returns the default, and the empty
    array when no default is passed. *)
Theorem get_fallback_scenarios :
  (forall fuel,
      get fuel nonArraySource (PathStr "a.[].b.c") (VStr "fallback") = None)
  /\ (forall fuel,
      get fuel emptyElementSource (PathStr "a.[].b.c") VUndefined = None)
  /\ get 0 nonArraySource (PathArr ["a"; "[]"; "b"; "c"]) (VStr "fallback")
     = Some (VStr "fallback")
  /\ get 0 emptyElementSource (PathArr ["a"; "[]"; "b"; "c"]) VUndefined
     = Some (VArr []).
Proof.
  repeat split; try reflexivity; intros fuel; unfold get;
    pose proof (toPath_dot_wildcard_stuck fuel ".b.c") as H;
    cbn [String.append] in H; now rewrite H.
Qed.

(** C6, on a source that is [null]: the plain names of [a.b.c] are all
    dropped by [toPath], the walk has no step, and [get] returns [null]
    instead of the default; so it does for the empty array of segments.
    With [undefined] as the source the default is returned, and [pick]
    returns the empty object for a source that is [null] or [undefined]. *)
Theorem get_null_source_empty_walk :
  (forall fuel,
      get (4 + fuel) VNull (PathStr "a.b.c") (VStr "dflt") = Some VNull)
  /\ (forall fuel, get fuel VNull (PathArr []) (VStr "dflt") = Some VNull)
  /\ (forall fuel,
      get (4 + fuel) VUndefined (PathStr "a.b.c") (VStr "dflt")
      = Some (VStr "dflt"))
  /\ (forall fuel paths,
      pick fuel VNull paths = Some [] /\ pick fuel VUndefined paths = Some []).
Proof.
  repeat split; reflexivity.
Qed.

(* ================================================================= *)
(** ** get, accumulating variant *)

Section AccumulatingGet.

Import Accumulating.

Lemma fold_left_pointwise {A B} (f g : A -> B -> A) (l : list B) :
  (forall a b, f a b = g a b) ->
  forall a, fold_left f l a = fold_left g l a.
Proof.
  intros H. induction l as [|b l IH]; intros a; [reflexivity|].
  simpl. rewrite H. apply IH.
Qed.

Lemma indexOf_lt x keys : forall i,
  indexOf x keys = Some i -> i < List.length keys.
Proof.
  induction keys as [|k keys IH]; intros i; simpl; [discriminate|].
  destruct (k =? x)%string.
  - intros [= <-]. lia.
  - destruct (indexOf x keys) as [j|]; [|discriminate].
    intros [= <-]. specialize (IH j eq_refl). lia.
Qed.

(** The bound of [processWildcardGet_bounded] is never reached. *)
Lemma processWildcardGet_bounded_enough m :
  forall n keys current result,
    List.length keys < m -> List.length keys < n ->
    processWildcardGet_bounded m current keys result
    = processWildcardGet_bounded n current keys result.
Proof.
  induction m as [|m IH]; intros n keys current result Hm Hn; [lia|].
  destruct n as [|n]; [lia|].
  cbn [processWildcardGet_bounded].
  destruct (nullish current); [reflexivity|].
  destruct (indexOf "[]" keys) as [i|] eqn:Hi; [|reflexivity].
  apply indexOf_lt in Hi.
  destruct (walk current (firstn i keys)) as [[| | | | |items|]|];
    try reflexivity.
  apply fold_left_pointwise. intros acc item.
  apply IH; rewrite length_skipn; lia.
Qed.

(** [processWildcardGet] obeys the recursion of the source. *)
Lemma processWildcardGet_acc_eq current keys result :
  processWildcardGet current keys result
  = if nullish current then result
    else
      match indexOf "[]" keys with
      | None =>
          match walk current keys with
          | Some v => if defined v then result ++ [v] else result
          | None => result
          end
      | Some wildcardIndex =>
          match walk current (firstn wildcardIndex keys) with
          | Some (VArr items) =>
              fold_left
                (fun acc item =>
                   processWildcardGet item
                     (skipn (wildcardIndex + 1) keys) acc)
                items result
          | _ => result
          end
      end.
Proof.
  unfold processWildcardGet at 1. cbn [processWildcardGet_bounded].
  destruct (nullish current); [reflexivity|].
  destruct (indexOf "[]" keys) as [i|] eqn:Hi; [|reflexivity].
  apply indexOf_lt in Hi.
  destruct (walk current (firstn i keys)) as [[| | | | |items|]|];
    try reflexivity.
  apply fold_left_pointwise. intros acc item.
  apply processWildcardGet_bounded_enough; rewrite length_skipn; lia.
Qed.

(** This variant collects all leaves in one flat array, whatever the
    number of wildcards, and has the same rule for the default. *)
Lemma accumulating_get_scenarios :
  Accumulating.get 0 testObject (PathArr ["a"; "[]"; "b"; "[]"; "c"])
    VUndefined
  = Some (VArr [VNum 42; VNum 43; VNum 99; VNum 100])
  /\ Accumulating.get 0 testObject (PathArr ["a"; "[]"; "b"; "0"; "c"])
       VUndefined
     = Some (VArr [VNum 42; VNum 99])
  /\ Accumulating.get 0 nonArraySource (PathArr ["a"; "[]"; "b"; "c"])
       (VStr "fallback")
     = Some (VStr "fallback")
  /\ Accumulating.get 0 emptyElementSource (PathArr ["a"; "[]"; "b"; "c"])
       VUndefined
     = Some (VArr []).
Proof. repeat split; reflexivity. Qed.

Lemma accumulating_get_no_result fuel object p keys d :
  toPath fuel p = Some keys ->
  includes keys "[]" = true ->
  processWildcardGet object keys [] = [] ->
  Accumulating.get fuel object p d
  = Some (if defined d then d else VArr []).
Proof.
  intros Hp Hw Hres. unfold Accumulating.get, Accumulating.get_keys.
  now rewrite Hp, Hw, Hres.
Qed.

End AccumulatingGet.

(* ================================================================= *)
(** ** pick *)

Section Pick.

Implicit Types (object current : value) (result : list (string * value)).

(** [processWildcardPath] obeys the recursion of the source, stated with
    [keys] and [index]. *)
Lemma processWildcardPath_eq current keys index :
  processWildcardPath current keys index
  = if nullish current || (List.length keys <=? index)%nat then VUndefined
    else
      let key := nth index keys "" in
      if negb (key =? "[]")%string then
        let nextValue := prop current key in
        if (index =? List.length keys - 1)%nat then
          if defined nextValue then VObj [(key, nextValue)] else VUndefined
        else
          let result := processWildcardPath nextValue keys (index + 1) in
          if defined result then VObj [(key, result)] else VUndefined
      else
        match current with
        | VArr items =>
            let result :=
              filter defined
                (map (fun item => processWildcardPath item keys (index + 1))
                   items) in
            if (0 <? List.length result)%nat then VArr result
            else VUndefined
        | _ => VUndefined
        end.
Proof.
  unfold processWildcardPath.
  destruct (Nat.leb_spec (List.length keys) index) as [Hle|Hlt].
  - rewrite skipn_all2 by lia. now rewrite orb_true_r.
  - rewrite orb_false_r, Nat.add_1_r.
    rewrite (skipn_nth_cons keys index Hlt).
    cbn [processWildcardPath_from].
    destruct (nullish current); [reflexivity|]. cbv zeta.
    destruct (negb (nth index keys "" =? "[]")%string); [|reflexivity].
    pose proof (skipn_S_nil keys index Hlt) as Hnil.
    destruct (skipn (S index) keys) as [|k' rest'] eqn:E.
    + destruct (Nat.eqb_spec index (List.length keys - 1)) as [Hi|Hi];
        [reflexivity|].
      destruct Hi. now apply Hnil.
    + destruct (Nat.eqb_spec index (List.length keys - 1)) as [Hi|Hi];
        [|reflexivity].
      apply Hnil in Hi. discriminate.
Qed.

Lemma obj_get_set_same result key v :
  obj_get key (obj_set result key v) = Some v.
Proof.
  induction result as [|[k w] result IH]; simpl.
  - now rewrite String.eqb_refl.
  - destruct (String.eqb_spec k key) as [E|E]; simpl.
    + subst. now rewrite String.eqb_refl.
    + apply String.eqb_neq in E. now rewrite E.
Qed.

Lemma obj_get_set_other result key key' v :
  key' <> key ->
  obj_get key (obj_set result key' v) = obj_get key result.
Proof.
  intros Hne. induction result as [|[k w] result IH]; simpl.
  - apply String.eqb_neq in Hne. now rewrite Hne.
  - destruct (String.eqb_spec k key') as [E|E]; simpl.
    + subst k. apply String.eqb_neq in Hne. now rewrite Hne.
    + destruct (k =? key)%string; [reflexivity | exact IH].
Qed.

Lemma pick_forEach_app fuel object props1 : forall props2 result,
  pick_forEach fuel object (props1 ++ props2) result
  = match pick_forEach fuel object props1 result with
    | Some result1 => pick_forEach fuel object props2 result1
    | None => None
    end.
Proof.
  induction props1 as [|p props1 IH]; intros props2 result; simpl;
    [reflexivity|].
  destruct (toPath fuel p); [apply IH | reflexivity].
Qed.

(** [pick] returns as soon as every path tokenizes. *)
Lemma pick_forEach_returns fuel object props : forall result,
  Forall (fun p => toPath fuel p <> None) props ->
  exists result', pick_forEach fuel object props result = Some result'.
Proof.
  induction props as [|p props IH]; intros result Hall; simpl.
  - now exists result.
  - inversion Hall as [|? ? Hp Hrest]; subst.
    destruct (toPath fuel p) as [keys|]; [|contradiction].
    now apply IH.
Qed.

(** Paths that do not assign [key] leave the property as it is. *)
Lemma pick_forEach_untouched fuel object key props : forall result result',
  (forall p keys v,
      In p props -> toPath fuel p = Some keys ->
      pick_assignment object keys <> Some (key, v)) ->
  pick_forEach fuel object props result = Some result' ->
  obj_get key result' = obj_get key result.
Proof.
  induction props as [|p props IH]; intros result result' Hnot H; simpl in H.
  - now inversion H.
  - destruct (toPath fuel p) as [keys|] eqn:Hp; [|discriminate].
    rewrite (IH _ _ (fun q ks v Hin => Hnot q ks v (or_intror Hin)) H).
    unfold pick_path.
    destruct (pick_assignment object keys) as [[k v]|] eqn:Ha;
      [|reflexivity].
    apply obj_get_set_other. intros ->.
    exact (Hnot p keys v (or_introl eq_refl) Hp Ha).
Qed.

End Pick.

(** C2, on its scenario: with the path string [a.[].b[0].c] the call of
    [pick] never returns, because [toPath] does not.  With the same
    segments written in brackets, which [toPath] keeps, the result is
    [{a: {a: [{b: {0: {c: 42}}}]}}]: the subtree that [processWildcardPath]
    builds starts with the root key again, and the indexed array [b] comes
    back as a record with the key [0]; it is not [{a: [{b: [{c: 42}]}]}]. *)
Theorem pick_wildcard_scenario :
  (forall fuel, pick fuel pickSource (PathStr "a.[].b[0].c") = None)
  /\ (forall fuel,
      pick (6 + fuel) pickSource (PathStr "['a'][]['b'][0]['c']")
      = Some [("a",
               VObj [("a",
                      VArr [VObj [("b",
                                   VObj [("0", VObj [("c", VNum 42)])])]])])])
  /\ (forall fuel,
      pick fuel pickSource (PathStr "['a'][]['b'][0]['c']")
      <> Some [("a", VArr [VObj [("b", VArr [VObj [("c", VNum 42)]])]])]).
Proof.
  split; [|split].
  - intros fuel. unfold pick. cbn [nullish pickSource pick_props pick_forEach].
    pose proof (toPath_dot_wildcard_stuck fuel ".b[0].c") as H.
    cbn [String.append] in H. now rewrite H.
  - intros fuel. reflexivity.
  - intros fuel H.
    assert (H6 : pick (6 + fuel) pickSource (PathStr "['a'][]['b'][0]['c']")
                 = Some [("a", VArr [VObj [("b",
                                            VArr [VObj [("c", VNum 42)]])]])]).
    { unfold pick in *. cbn [nullish pickSource pick_props pick_forEach] in *.
      destruct (toPath fuel (PathStr "['a'][]['b'][0]['c']")) as [keys|] eqn:E;
        [|discriminate].
      rewrite (toPath_mono _ _ _ E (6 + fuel)) by lia. exact H. }
    discriminate H6.
Qed.

(** C9: the paths are handled from left to right, each one assigning its
    property in the one result object, so that the result for the paths
    [ps] followed by [p] is the result for [ps] with the assignment of [p]
    made on it; hence the value found under a top-level key is the one
    assigned by the last path that assigns this key, whatever earlier paths
    stored there.  On a document with [a.x = 1] and [x = 2], the paths
    [a.x] and [x] both assign the key [x]: the later one decides. *)
Theorem pick_later_path_wins :
  (forall fuel object ps p result keys,
      nullish object = false ->
      pick fuel object (PathArr ps) = Some result ->
      toPath fuel (PathStr p) = Some keys ->
      pick fuel object (PathArr (ps ++ [p]))
      = Some (pick_path object result keys))
  /\ (forall fuel object earlier p later keys key v,
      nullish object = false ->
      Forall (fun q => toPath fuel (PathStr q) <> None)
        (earlier ++ p :: later) ->
      toPath fuel (PathStr p) = Some keys ->
      pick_assignment object keys = Some (key, v) ->
      (forall q keys' v',
          In q later -> toPath fuel (PathStr q) = Some keys' ->
          pick_assignment object keys' <> Some (key, v')) ->
      exists result,
        pick fuel object (PathArr (earlier ++ p :: later)) = Some result
        /\ obj_get key result = Some v)
  /\ pick 3 (VObj [("a", VObj [("x", VNum 1)]); ("x", VNum 2)])
       (PathArr ["['a']['x']"; "['x']"])
     = Some [("x", VNum 2)]
  /\ pick 3 (VObj [("a", VObj [("x", VNum 1)]); ("x", VNum 2)])
       (PathArr ["['x']"; "['a']['x']"])
     = Some [("x", VNum 1)].
Proof.
  split; [|split; [|split; reflexivity]].
  - intros fuel object ps p result keys Hobj Hps Hp.
    unfold pick in *. rewrite Hobj in *. cbn [pick_props] in *.
    rewrite map_app, pick_forEach_app, Hps. cbn [map pick_forEach].
    now rewrite Hp.
  - intros fuel object earlier p later keys key v Hobj Hall Hp Hassign Hlater.
    unfold pick. rewrite Hobj. cbn [pick_props].
    rewrite map_app, pick_forEach_app. cbn [map].
    apply Forall_app in Hall. destruct Hall as [Hearlier Hrest].
    inversion Hrest as [|? ? _ Hlater_ok]; subst.
    destruct (pick_forEach_returns fuel object (map PathStr earlier) [])
      as [result1 H1].
    { apply Forall_map. exact Hearlier. }
    rewrite H1. cbn [pick_forEach]. rewrite Hp.
    destruct (pick_forEach_returns fuel object (map PathStr later)
                (pick_path object result1 keys)) as [result2 H2].
    { apply Forall_map. exact Hlater_ok. }
    exists result2. split; [exact H2|].
    assert (Hnot : forall q ks w,
               In q (map PathStr later) -> toPath fuel q = Some ks ->
               pick_assignment object ks <> Some (key, w)).
    { intros q ks w Hin Hq.
      apply in_map_iff in Hin. destruct Hin as [q' [<- Hin]].
      exact (Hlater q' ks w Hin Hq). }
    rewrite (pick_forEach_untouched fuel object key _ _ _ Hnot H2).
    unfold pick_path. rewrite Hassign. apply obj_get_set_same.
Qed.

Lemma pick_later_path_wins_witness :
  exists result,
    pick 5 (VObj [("a", VArr [VObj [("x", VNum 1)]]); ("x", VNum 2)])
      (PathArr (["['x']"; "['a'][0]"] ++ "['a'][]['x']" :: ["['x']"]))
    = Some result
    /\ obj_get "a" result = Some (VObj [("a", VArr [VObj [("x", VNum 1)]])]).
Proof.
  apply (proj1 (proj2 pick_later_path_wins)
           5 (VObj [("a", VArr [VObj [("x", VNum 1)]]); ("x", VNum 2)])
           ["['x']"; "['a'][0]"] "['a'][]['x']" ["['x']"]
           ["a"; "[]"; "x"] "a"
           (VObj [("a", VArr [VObj [("x", VNum 1)]])])).
  - reflexivity.
  - cbn [app].
    repeat (apply Forall_cons; [vm_compute; discriminate|]).
    apply Forall_nil.
  - reflexivity.
  - reflexivity.
  - intros q keys' v' [<-|[]] Hq Ha.
    vm_compute in Hq. inversion Hq; subst keys'.
    vm_compute in Ha. discriminate.
Defined.


(* ================================================================= *)
(** * Further properties *)

(* ================================================================= *)
(** ** combineEmpty: what is kept *)

Section CombineEmptyConservation.

Lemma string_app_assoc (a b c : string) :
  ((a ++ b) ++ c = a ++ (b ++ c))%string.
Proof. induction a as [|x a IH]; simpl; [reflexivity | now rewrite IH]. Qed.

Lemma string_app_nil_r (a : string) : (a ++ "")%string = a.
Proof. induction a as [|x a IH]; simpl; [reflexivity | now rewrite IH]. Qed.

Lemma string_length_app (a b : string) :
  String.length (a ++ b) = String.length a + String.length b.
Proof. induction a as [|x a IH]; simpl; [reflexivity | now rewrite IH]. Qed.

Lemma repeat_string_dot_comm n :
  (repeat_string "." n ++ ".")%string = ("." ++ repeat_string "." n)%string.
Proof. induction n as [|n IH]; [reflexivity|]. simpl in *. now rewrite IH. Qed.

Lemma join_all_app xs ys :
  join_all (xs ++ ys) = (join_all xs ++ join_all ys)%string.
Proof.
  induction xs as [|x xs IH]; [reflexivity|].
  simpl. unfold join_all in *. simpl. now rewrite IH, string_app_assoc.
Qed.

Lemma combineEmpty_step_empty result n :
  combineEmpty_step (result, n) "" = (result, n + 1).
Proof. reflexivity. Qed.

(** The text written so far, with the pending dots, is the text of the
    segments read so far. *)
Lemma combineEmpty_loop_text arr : forall result n,
  (join_all (fst (fold_left combineEmpty_step arr (result, n)))
   ++ repeat_string "."
        (snd (fold_left combineEmpty_step arr (result, n))))%string
  = (join_all result ++ repeat_string "." n
     ++ join_all (map dot_for_empty arr))%string.
Proof.
  induction arr as [|item arr IH]; intros result n; cbn [fold_left map].
  - cbn. now rewrite string_app_nil_r.
  - cbn [join_all fold_right].
    change (fold_right String.append "" (map dot_for_empty arr))
      with (join_all (map dot_for_empty arr)).
    unfold dot_for_empty at 1.
    destruct (String.eqb_spec item "") as [E|E].
    + subst item. rewrite combineEmpty_step_empty, IH. f_equal.
      rewrite Nat.add_1_r. cbn [repeat_string].
      rewrite <- !string_app_assoc. f_equal.
      symmetry. apply (repeat_string_dot_comm n).
    + rewrite combineEmpty_step_nonempty by assumption.
      rewrite IH, join_all_app.
      cbn [join_all fold_right repeat_string String.append].
      change (fold_right String.append "" (map dot_for_empty arr))
        with (join_all (map dot_for_empty arr)).
      now rewrite string_app_nil_r, !string_app_assoc.
Qed.

Lemma combineEmpty_finish_text st :
  join_all (combineEmpty_finish st)
  = (join_all (fst st) ++ repeat_string "." (snd st))%string.
Proof.
  destruct st as [r n]. unfold combineEmpty_finish. cbn [fst snd].
  destruct n as [|n]; cbn [Nat.ltb Nat.leb].
  - cbn [repeat_string]. now rewrite string_app_nil_r.
  - rewrite join_all_app. cbn [join_all fold_right].
    now rewrite string_app_nil_r.
Qed.

Lemma combineEmpty_loop_count arr : forall result n,
  List.length (fst (fold_left combineEmpty_step arr (result, n)))
  = List.length result + count_nonempty arr.
Proof.
  induction arr as [|item arr IH]; intros result n; cbn [fold_left].
  - cbn. lia.
  - unfold count_nonempty. cbn [filter].
    destruct (String.eqb_spec item "") as [E|E]; cbn [negb].
    + subst item. rewrite combineEmpty_step_empty. apply IH.
    + rewrite combineEmpty_step_nonempty by assumption.
      rewrite IH, length_app. cbn [List.length].
      unfold count_nonempty. lia.
Qed.

Lemma combineEmpty_text arr :
  join_all (combineEmpty arr) = join_all (map dot_for_empty arr).
Proof.
  rewrite combineEmpty_unfold, combineEmpty_finish_text.
  now rewrite (combineEmpty_loop_text arr [] 0).
Qed.

End CombineEmptyConservation.

(** X1: [combineEmpty] keeps the text of its input: written one after the
    other, the segments of the output read as those of the input with one
    dot for every empty segment; so the output has as many characters as
    the input has, plus one for every empty segment. *)
Theorem combineEmpty_keeps_text :
  forall arr,
    join_all (combineEmpty arr) = join_all (map dot_for_empty arr)
    /\ String.length (join_all (combineEmpty arr))
       = String.length (join_all arr)
         + (List.length arr - count_nonempty arr).
Proof.
  intros arr.
  split; [apply combineEmpty_text|]. rewrite combineEmpty_text.
  induction arr as [|item arr IH]; [reflexivity|].
  cbn [map join_all fold_right].
  change (fold_right String.append "" (map dot_for_empty arr))
    with (join_all (map dot_for_empty arr)).
  change (fold_right String.append "" arr) with (join_all arr).
  rewrite !string_length_app, IH.
  unfold count_nonempty. cbn [filter List.length]. unfold dot_for_empty.
  pose proof (filter_length_le (fun t => negb (t =? "")%string) arr) as Hle.
  destruct (String.eqb_spec item "") as [E|E]; cbn [negb List.length].
  - subst item. cbn [String.length]. lia.
  - lia.
Qed.

(** X2: the output of [combineEmpty] has one segment for every non-empty
    segment of the input, and one more when the input ends in an empty
    segment; it is never longer than the input. *)
Theorem combineEmpty_segment_count :
  forall arr,
    List.length (combineEmpty arr)
    = count_nonempty arr
      + (if (last arr "-" =? "")%string then 1 else 0)
    /\ List.length (combineEmpty arr) <= List.length arr.
Proof.
  intros arr.
  assert (Hcount : List.length (combineEmpty arr)
                   = count_nonempty arr
                     + (if (last arr "-" =? "")%string then 1 else 0)).
  { destruct (List.rev arr) as [|t pre'] eqn:Hrev.
    - apply (f_equal (@List.rev string)) in Hrev.
      rewrite rev_involutive in Hrev. subst arr. reflexivity.
    - apply (f_equal (@List.rev string)) in Hrev.
      rewrite rev_involutive in Hrev. cbn [rev] in Hrev.
      set (pre := rev pre') in *. subst arr. rewrite last_last.
      rewrite combineEmpty_unfold, fold_left_app. cbn [fold_left].
      pose proof (combineEmpty_loop_count pre [] 0) as Hlen.
      destruct (fold_left combineEmpty_step pre ([], 0)) as [r n].
      cbn [fst snd List.length] in Hlen. cbn [Nat.add] in Hlen.
      unfold count_nonempty. rewrite filter_app, length_app.
      fold (count_nonempty pre). rewrite <- Hlen. cbn [filter].
      destruct (String.eqb_spec t "") as [E|E]; cbn [negb List.length].
      + subst t. rewrite combineEmpty_step_empty.
        unfold combineEmpty_finish. cbn [fst snd].
        replace (0 <? n + 1)%nat with true
          by (symmetry; apply Nat.ltb_lt; lia).
        rewrite length_app. cbn [List.length]. lia.
      + rewrite combineEmpty_step_nonempty by assumption.
        unfold combineEmpty_finish. cbn [fst snd Nat.ltb Nat.leb].
        rewrite length_app. cbn [List.length]. lia. }
  split; [exact Hcount|]. rewrite Hcount.
  unfold count_nonempty.
  destruct (List.rev arr) as [|t pre'] eqn:Hrev.
  - apply (f_equal (@List.rev string)) in Hrev.
    rewrite rev_involutive in Hrev. subst arr. cbn. lia.
  - apply (f_equal (@List.rev string)) in Hrev.
    rewrite rev_involutive in Hrev. cbn [rev] in Hrev. subst arr.
    rewrite last_last, filter_app, !length_app. cbn [filter List.length].
    pose proof (filter_length_le (fun t => negb (t =? "")%string) (rev pre')).
    destruct (String.eqb_spec t "") as [E|E]; cbn [negb List.length]; lia.
Qed.

(* ================================================================= *)
(** ** toPath: when the loop ends, and what it keeps *)

Section TokenizerProgress.



Lemma drop_length n : forall s,
  String.length (drop n s) = String.length s - n.
Proof.
  induction n as [|n IH]; intros s; simpl.
  - lia.
  - destruct s as [|c s]; simpl; [reflexivity | apply IH].
Qed.

Lemma starts_with_dot s :
  starts_with "." s = true -> exists s', s = String "."%char s'.
Proof.
  destruct s as [|c s]; cbn [starts_with]; [discriminate|].
  rewrite andb_true_r. intros H. apply Ascii.eqb_eq in H. subst c.
  now exists s.
Qed.












End TokenizerProgress.

Section TokenizerPlainText.

Lemma name_char_cases c :
  (c =? "[")%char = false ->
  name_char c = true
  \/ (name_char c = false /\ (c = "."%char \/ c = "]"%char)).
Proof.
  intros Hb. unfold name_char. rewrite Hb, orb_false_r.
  destruct (Ascii.eqb_spec c "."); [right; split; auto|].
  destruct (Ascii.eqb_spec c "]"); [right; split; auto | left; reflexivity].
Qed.

Lemma take_while_name_before_dot pre : forall rest,
  starts_with "." rest = true ->
  String.length (take_while name_char (pre ++ rest)) <= String.length pre.
Proof.
  induction pre as [|c pre IH]; intros rest H.
  - apply starts_with_dot in H. destruct H as [r ->]. cbn. lia.
  - cbn [String.append take_while]. destruct (name_char c).
    + cbn [String.length]. specialize (IH rest H). lia.
    + cbn. lia.
Qed.

Lemma rePropName_at_no_name c s :
  name_char c = false -> (c =? "[")%char = false ->
  rePropName_at (String c s)
  = if separator_ahead (String c s) then Some (mkMatch "" None None)
    else None.
Proof.
  intros Hn Hb. unfold rePropName_at. cbn [take_while]. rewrite Hn.
  cbn [String.eqb negb starts_with bracket_at].
  rewrite (Ascii.eqb_sym "[" c), Hb. reflexivity.
Qed.

Lemma rePropName_at_name c s :
  name_char c = true ->
  rePropName_at (String c s)
  = Some (mkMatch (take_while name_char (String c s)) None None).
Proof.
  intros Hn. unfold rePropName_at. cbn [take_while]. rewrite Hn.
  reflexivity.
Qed.

(** Before a stuck dot, and with no bracket in between, [exec] always
    finds a match, and the match ends at the dot at the latest. *)
Lemma search_before_stuck_dot pre : forall rest i,
  has_char "[" pre = false ->
  stuck_here rest = true ->
  exists m j,
    search (pre ++ rest) i = Some (m, j)
    /\ j + String.length (match_0 m) <= i + String.length pre.
Proof.
  induction pre as [|c pre IH]; intros rest i Hpre Hrest.
  - cbn [String.append].
    assert (Hat : rePropName_at rest = Some (mkMatch "" None None)).
    { unfold stuck_here in Hrest. apply andb_prop in Hrest.
      destruct Hrest as [Hdot Hsep].
      destruct (starts_with_dot rest Hdot) as [r ->].
      rewrite rePropName_at_no_name by reflexivity. now rewrite Hsep. }
    exists (mkMatch "" None None), i.
    destruct rest; cbn [search]; rewrite Hat; split; try reflexivity;
      cbn; lia.
  - cbn [has_char] in Hpre. apply orb_false_elim in Hpre.
    destruct Hpre as [Hc Hpre]. cbn [String.append search].
    destruct (name_char_cases c Hc) as [Hn|[Hn _]].
    + rewrite (rePropName_at_name c _ Hn).
      eexists _, i. split; [reflexivity|]. cbn [match_0].
      pose proof (take_while_name_before_dot (String c pre) rest) as Hlen.
      cbn [String.append] in Hlen.
      unfold stuck_here in Hrest. apply andb_prop in Hrest.
      specialize (Hlen (proj1 Hrest)). lia.
    + rewrite (rePropName_at_no_name c _ Hn Hc).
      destruct (separator_ahead (String c (pre ++ rest))).
      * exists (mkMatch "" None None), i. split; [reflexivity|].
        cbn. lia.
      * destruct (IH rest (S i) Hpre Hrest) as [m [j [Hs Hj]]].
        exists m, j. split; [exact Hs|]. cbn [String.length]. lia.
Qed.

Lemma drop_app n : forall pre rest,
  n <= String.length pre ->
  drop n (pre ++ rest) = (drop n pre ++ rest)%string.
Proof.
  induction n as [|n IH]; intros pre rest H.
  - now destruct pre.
  - destruct pre as [|c pre]; [simpl in H; lia|].
    cbn [String.append drop]. apply IH. simpl in H. lia.
Qed.

Lemma has_char_drop c n : forall s,
  has_char c s = false -> has_char c (drop n s) = false.
Proof.
  induction n as [|n IH]; intros s H; [exact H|].
  destruct s as [|c' s]; [exact H|]. cbn [drop]. apply IH.
  cbn [has_char] in H. now apply orb_false_elim in H.
Qed.

Lemma stringToPath_loop_never_passes pre rest :
  has_char "[" pre = false ->
  stuck_here rest = true ->
  forall fuel lastIndex result,
    lastIndex <= String.length pre ->
    stringToPath_loop fuel (pre ++ rest) lastIndex result = None.
Proof.
  intros Hpre Hrest fuel.
  induction fuel as [|fuel IH]; intros lastIndex result Hle; [reflexivity|].
  rewrite stringToPath_loop_step. unfold exec.
  rewrite string_length_app.
  destruct (Nat.ltb_spec (String.length pre + String.length rest) lastIndex)
    as [Hlt|_]; [lia|].
  rewrite drop_app by exact Hle.
  destruct (search_before_stuck_dot (drop lastIndex pre) rest lastIndex
              (has_char_drop _ _ _ Hpre) Hrest) as [m [j [Hs Hj]]].
  rewrite Hs. cbv zeta. apply IH.
  rewrite drop_length in Hj. lia.
Qed.






End TokenizerPlainText.



(** X4: [toPath] never returns for a path string that, once unescaped, has
    a dot directly followed by another dot, by the wildcard marker or by
    the end of the path, with no opening bracket before that dot; this is
    the case of every path written [name.[]...]. *)
Theorem toPath_never_returns_at_stuck_dot :
  forall s pre rest,
    unescape s = (pre ++ rest)%string ->
    has_char "[" pre = false ->
    stuck_here rest = true ->
    forall fuel, toPath fuel (PathStr s) = None.
Proof.
  intros s pre rest Hs Hpre Hrest fuel.
  cbn [toPath stringToPath]. rewrite Hs.
  apply stringToPath_loop_never_passes; [assumption | assumption | lia].
Qed.

Lemma toPath_never_returns_at_stuck_dot_witness :
  unescape "users.[].name" = ("users" ++ ".[].name")%string
  /\ has_char "[" "users" = false
  /\ stuck_here ".[].name" = true
  /\ forall fuel, toPath fuel (PathStr "users.[].name") = None.
Proof.
  repeat split.
  apply (toPath_never_returns_at_stuck_dot
           "users.[].name" "users" ".[].name"); reflexivity.
Defined.




(* ================================================================= *)
(** ** superToPath: what it emits *)

Section SuperToPathSegments.

Variable lodash_toPath : path -> list string.

Lemma superToPath_forEach_segments segments : forall index len result,
  Forall (fun t => t <> "") result ->
  Forall (fun t => t <> "")
    (superToPath_forEach lodash_toPath segments index len result).
Proof.
  induction segments as [|segment rest IH]; intros index len result Hres;
    cbn [superToPath_forEach]; [exact Hres|].
  apply IH.
  assert (H1 : Forall (fun t => t <> "")
                 (if (segment =? "")%string
                  then result ++ combineEmpty [""]
                  else result
                       ++ combineEmpty (lodash_toPath (PathStr segment)))).
  { destruct (segment =? "")%string; apply Forall_app; split; auto;
      apply combineEmpty_output. }
  destruct (index <? len - 1)%nat; [|exact H1].
  apply Forall_app. split; [exact H1|]. constructor; [discriminate|].
  constructor.
Qed.

Lemma superToPath_forEach_nonempty segments : forall index len result,
  result <> [] ->
  superToPath_forEach lodash_toPath segments index len result <> [].
Proof.
  induction segments as [|segment rest IH]; intros index len result Hr;
    cbn [superToPath_forEach]; [exact Hr|].
  apply IH.
  destruct (segment =? "")%string, (index <? len - 1)%nat;
    destruct result; try contradiction; discriminate.
Qed.

Lemma split_wildcard_nonempty s : forall cur, split_wildcard s cur <> [].
Proof.
  induction s as [|c1 s1 IH]; intros cur; cbn [split_wildcard];
    [discriminate|].
  destruct s1 as [|c2 [|c3 [|c4 rest]]]; try apply IH.
  destruct (_ =? ".[].")%string; [discriminate | apply IH].
Qed.

Lemma superToPath_no_empty value :
  Forall (fun t => t <> "") (superToPath lodash_toPath value).
Proof.
  destruct value; cbn [superToPath]; try constructor.
  - apply superToPath_forEach_segments. constructor.
  - apply combineEmpty_output.
Qed.

Lemma combineEmpty_nil arr : combineEmpty arr = [] -> arr = [].
Proof.
  intros H. pose proof (combineEmpty_text arr) as Ht.
  rewrite H in Ht. destruct arr as [|t l]; [reflexivity|].
  cbn [map join_all fold_right] in Ht. unfold dot_for_empty in Ht.
  destruct (String.eqb_spec t "") as [E|E]; [discriminate|].
  destruct t; [contradiction | discriminate].
Qed.

End SuperToPathSegments.

(** X6: whatever [toPath] of lodash returns for the pieces, no segment that
    [superToPath] returns is the empty string, for a path string, an array
    of keys, [null] and [undefined] alike; and for a path string the
    result is never the empty sequence when lodash tokenizes every
    non-empty piece to at least one key. *)
Theorem superToPath_segments_not_empty :
  forall lodash_toPath value,
    Forall (fun t => t <> "") (superToPath lodash_toPath value)
    /\ (forall s,
          value = PathStr s ->
          (forall piece, piece <> "" ->
                         lodash_toPath (PathStr piece) <> []) ->
          superToPath lodash_toPath value <> []).
Proof.
  intros L value. split.
  - apply superToPath_no_empty.
  - intros s -> HL. cbn [superToPath].
    destruct (split_wildcard s "") as [|segment rest] eqn:E.
    + now apply split_wildcard_nonempty in E.
    + cbn [superToPath_forEach].
      apply superToPath_forEach_nonempty.
      { destruct (String.eqb_spec segment "") as [Es|Es].
        - cbn [app]. destruct (0 <? _)%nat; discriminate.
        - cbn [app].
          assert (Hc : combineEmpty (L (PathStr segment)) <> []).
          { intros Hc. apply (HL segment Es).
            now apply combineEmpty_nil. }
          destruct (combineEmpty (L (PathStr segment))); [contradiction|].
          destruct (0 <? _)%nat; discriminate. }
Qed.

Lemma superToPath_segments_not_empty_witness :
  superToPath
    (fun p => match p with
              | PathStr s => [s]
              | PathArr l => l
              | _ => []
              end) (PathStr "") <> [].
Proof.
  apply (proj2 (superToPath_segments_not_empty
                  (fun p => match p with
                            | PathStr s => [s]
                            | PathArr l => l
                            | _ => []
                            end) (PathStr "")) "" eq_refl).
  intros piece _. discriminate.
Defined.

(* ================================================================= *)
(** ** get: the shape of a wildcard result *)

Section GetShape.

Implicit Types (current object item : value) (keys rest pre : list string).

Lemma wildcards_cons key rest :
  wildcards (key :: rest)
  = if (key =? "[]")%string then S (wildcards rest) else wildcards rest.
Proof. unfold wildcards. cbn [filter]. now destruct (key =? "[]")%string. Qed.

Lemma includes_wildcards keys :
  includes keys "[]" = false <-> wildcards keys = 0.
Proof.
  induction keys as [|key keys IH]; [now split|].
  rewrite includes_cons, wildcards_cons.
  destruct (key =? "[]")%string; cbn [orb]; [split; discriminate | exact IH].
Qed.

Lemma filter_defined_nested (f : value -> value) n items :
  (forall item, f item = VUndefined \/ nested n (f item)) ->
  Forall (nested n) (filter defined (map f items)).
Proof.
  intros Hf. induction items as [|item items IH]; [constructor|].
  cbn [map filter]. destruct (defined (f item)) eqn:E; [|exact IH].
  constructor; [|exact IH].
  destruct (Hf item) as [H|H]; [|exact H]. rewrite H in E. discriminate.
Qed.

Lemma processWildcardGet_from_shape rest : forall current,
  processWildcardGet_from rest current = VUndefined
  \/ nested (wildcards rest) (processWildcardGet_from rest current).
Proof.
  induction rest as [|key rest IH]; intros current; [now left|].
  cbn [processWildcardGet_from]. rewrite wildcards_cons.
  destruct (nullish current); [now left|].
  destruct (key =? "[]")%string; cbn [negb].
  - destruct current; try (now left).
    pose proof (filter_defined_nested (processWildcardGet_from rest)
                  (wildcards rest) items IH) as Hall.
    destruct (filter defined (map (processWildcardGet_from rest) items))
      as [|x l]; [now left|].
    right. cbn [List.length Nat.ltb Nat.leb nested]. now exists x, l.
  - destruct rest as [|key' rest'].
    + destruct (defined (prop current key)) eqn:E; [|now left].
      right. cbn [wildcards filter List.length nested]. eauto.
    + apply IH.
Qed.

Lemma filter_defined_none (f : value -> value) items :
  (forall item, f item = VUndefined) -> filter defined (map f items) = [].
Proof.
  intros Hf. induction items as [|item items IH]; [reflexivity|].
  cbn [map filter]. now rewrite Hf.
Qed.

Lemma processWildcardGet_from_trailing rest : forall current,
  last rest "-" = "[]" ->
  processWildcardGet_from rest current = VUndefined.
Proof.
  induction rest as [|key rest IH]; intros current Hlast; [reflexivity|].
  cbn [processWildcardGet_from].
  destruct (nullish current); [reflexivity|].
  destruct rest as [|key' rest'].
  - cbn [last] in Hlast. subst key. cbn [String.eqb Ascii.eqb Bool.eqb negb].
    destruct current; try reflexivity.
    now rewrite filter_defined_none.
  - assert (Hl : last (key' :: rest') "-" = "[]") by exact Hlast.
    destruct (negb (key =? "[]")%string); [now apply IH|].
    destruct current; try reflexivity.
    rewrite filter_defined_none; [reflexivity|].
    intros item. now apply IH.
Qed.

Lemma dereference_app pre : forall current rest,
  rest <> [] ->
  dereference current (pre ++ rest)
  = dereference (dereference current pre) rest.
Proof.
  induction pre as [|key pre IH]; intros current rest Hne; [reflexivity|].
  cbn [app dereference]. destruct (nullish current) eqn:E.
  - symmetry. now apply dereference_nullish.
  - now apply IH.
Qed.


End GetShape.



(** X8: a path that ends in a wildcard resolves to nothing: whatever the
    source holds, [get] returns the default (the empty array without one),
    never the elements of the array under the wildcard. *)
Theorem get_trailing_wildcard :
  forall fuel object p keys d,
    toPath fuel p = Some keys ->
    last keys "-" = "[]" ->
    get fuel object p d = Some (if defined d then d else VArr []).
Proof.
  intros fuel object p keys d Hp Hlast.
  apply (get_wildcard_no_result _ _ _ _ _ Hp).
  - destruct keys as [|k keys] using rev_ind; [discriminate|].
    rewrite last_last in Hlast. subst k.
    rewrite includes_app. cbn. apply orb_true_r.
  - unfold processWildcardGet. now apply processWildcardGet_from_trailing.
Qed.

Lemma get_trailing_wildcard_witness :
  get 3 (VObj [("a", VArr [VNum 1; VNum 2])]) (PathStr "['a'][]") VUndefined
  = Some (VArr []).
Proof.
  apply (get_trailing_wildcard 3 (VObj [("a", VArr [VNum 1; VNum 2])])
           (PathStr "['a'][]") ["a"; "[]"] VUndefined); reflexivity.
Defined.

(** X9: [get] composes along a path: for plain segments [pre] followed by
    at least one more segment, resolving [pre ++ rest] in a source is
    resolving [rest] in what the plain walk along [pre] reaches, with or
    without wildcards in [rest]. *)
Theorem get_composes_along_prefix :
  forall object pre rest d,
    includes pre "[]" = false ->
    rest <> [] ->
    get 0 object (PathArr (pre ++ rest)) d
    = get 0 (dereference object pre) (PathArr rest) d.
Proof.
  intros object pre rest d Hpre Hne. unfold get. cbn [toPath]. f_equal.
  unfold get_keys. rewrite includes_app, Hpre. cbn [orb].
  destruct (includes rest "[]").
  - unfold processWildcardGet. cbn [skipn].
    now rewrite processWildcardGet_from_prefix.
  - rewrite !get_walk_dereference.
    + now rewrite dereference_app.
    + exact Hne.
    + intros E. apply app_eq_nil in E. now destruct E.
Qed.

Lemma get_composes_along_prefix_witness :
  get 0 testObject (PathArr (["a"; "1"] ++ ["b"; "[]"; "c"])) VUndefined
  = get 0 (dereference testObject ["a"; "1"]) (PathArr ["b"; "[]"; "c"])
      VUndefined.
Proof.
  apply (get_composes_along_prefix testObject ["a"; "1"] ["b"; "[]"; "c"]);
    [reflexivity | discriminate].
Defined.

(* ================================================================= *)
(** ** get: the two variants side by side *)

Section GetVariants.

Import Accumulating.

Lemma indexOf_none x keys : indexOf x keys = None -> includes keys x = false.
Proof.
  induction keys as [|k keys IH]; [reflexivity|].
  cbn [indexOf]. rewrite includes_cons.
  destruct (k =? x)%string; [discriminate|].
  destruct (indexOf x keys); [discriminate|]. intros _. now apply IH.
Qed.

Lemma indexOf_split x keys : forall i,
  indexOf x keys = Some i ->
  keys = firstn i keys ++ x :: skipn (i + 1) keys
  /\ includes (firstn i keys) x = false.
Proof.
  induction keys as [|k keys IH]; intros i; cbn [indexOf]; [discriminate|].
  destruct (String.eqb_spec k x) as [E|E].
  - intros [= <-]. subst k. now split.
  - destruct (indexOf x keys) as [j|]; [|discriminate].
    intros [= <-]. destruct (IH j eq_refl) as [H1 H2].
    cbn [firstn Nat.add skipn app]. split.
    + now rewrite <- H1.
    + rewrite includes_cons, H2. apply String.eqb_neq in E. now rewrite E.
Qed.

Lemma walk_dereference keys : forall v,
  dereference v keys
  = match walk v keys with
    | Some w => w
    | None => VUndefined
    end.
Proof.
  induction keys as [|key keys IH]; intros v; [reflexivity|].
  cbn [dereference walk]. destruct (nullish v); [reflexivity | apply IH].
Qed.

Lemma leaves_undefined n : leaves n VUndefined = [].
Proof. now destruct n. Qed.

Lemma flat_map_filter_defined n (f : value -> value) items :
  flat_map (leaves n) (filter defined (map f items))
  = flat_map (fun item => leaves n (f item)) items.
Proof.
  induction items as [|item items IH]; [reflexivity|].
  cbn [map filter flat_map]. destruct (f item) eqn:E; cbn [defined flat_map];
    rewrite IH; try reflexivity.
  now rewrite leaves_undefined.
Qed.

Lemma fold_left_append {A} (f : A -> list value) (l : list A) :
  forall acc,
    fold_left (fun acc x => acc ++ f x) l acc = acc ++ flat_map f l.
Proof.
  induction l as [|x l IH]; intros acc; cbn [fold_left flat_map].
  - now rewrite app_nil_r.
  - now rewrite IH, app_assoc.
Qed.

Lemma last_plain_suffix pre suf :
  last (pre ++ "[]" :: suf) "[]" <> "[]" ->
  suf <> [] /\ last suf "[]" <> "[]".
Proof.
  intros H. destruct suf as [|k suf] using rev_ind.
  - exfalso. apply H. now rewrite last_last.
  - split; [now destruct suf|].
    rewrite last_last. intros E. apply H.
    replace (pre ++ "[]" :: suf ++ [k]) with ((pre ++ "[]" :: suf) ++ [k])
      by (now rewrite <- app_assoc).
    now rewrite last_last.
Qed.

(** The accumulating resolver pushes the leaves of the index-based
    result, in their order. *)
Lemma accumulating_leaves n : forall keys current result,
  List.length keys <= n ->
  last keys "[]" <> "[]" ->
  Accumulating.processWildcardGet current keys result
  = result ++ leaves (wildcards keys) (processWildcardGet_from keys current).
Proof.
  induction n as [|n IH]; intros keys current result Hn Hlast.
  - destruct keys; [now contradiction Hlast | simpl in Hn; lia].
  - rewrite processWildcardGet_acc_eq.
    destruct (nullish current) eqn:Hnull.
    + rewrite processWildcardGet_from_nullish by assumption.
      now rewrite leaves_undefined, app_nil_r.
    + destruct (indexOf "[]" keys) as [i|] eqn:Hi.
      * destruct (indexOf_split _ _ _ Hi) as [Hsplit Hpre].
        set (pre := firstn i keys) in *.
        set (suf := skipn (i + 1) keys) in *.
        assert (Hsuf : suf <> [] /\ last suf "[]" <> "[]").
        { apply (last_plain_suffix pre). now rewrite <- Hsplit. }
        assert (Hlen : List.length suf <= n).
        { apply (f_equal (@List.length string)) in Hsplit.
          rewrite length_app in Hsplit. cbn [List.length] in Hsplit. lia. }
        replace (wildcards keys) with (wildcards (pre ++ "[]" :: suf))
          by (now rewrite <- Hsplit).
        replace (processWildcardGet_from keys current)
          with (processWildcardGet_from (pre ++ "[]" :: suf) current)
          by (now rewrite <- Hsplit).
        rewrite processWildcardGet_from_prefix by (discriminate || assumption).
        assert (Hw : wildcards (pre ++ "[]" :: suf) = S (wildcards suf)).
        { unfold wildcards. rewrite filter_app, length_app.
          apply includes_wildcards in Hpre. unfold wildcards in Hpre.
          rewrite Hpre. reflexivity. }
        rewrite Hw, (walk_dereference pre current).
        destruct (walk current pre) as [[| | | | |items|]|];
          try (cbn; now rewrite app_nil_r).
        cbn [processWildcardGet_from nullish String.eqb Ascii.eqb Bool.eqb
             negb].
        rewrite (fold_left_pointwise _
                   (fun acc item =>
                      acc ++ leaves (wildcards suf)
                               (processWildcardGet_from suf item)))
          by (intros acc item; apply IH; tauto).
        rewrite fold_left_append. f_equal.
        rewrite <- flat_map_filter_defined.
        destruct (filter defined (map (processWildcardGet_from suf) items));
          reflexivity.
      * pose proof (indexOf_none _ _ Hi) as Hplain.
        rewrite processWildcardGet_from_plain;
          [|destruct keys; [now contradiction Hlast | discriminate]
           |exact Hplain].
        apply includes_wildcards in Hplain. rewrite Hplain.
        rewrite (walk_dereference keys current).
        destruct (walk current keys) as [v|]; [|cbn; now rewrite app_nil_r].
        destruct (defined v); [reflexivity | cbn; now rewrite app_nil_r].
Qed.

Lemma nested_leaves n : forall v, nested n v -> leaves n v <> [].
Proof.
  induction n as [|n IH]; intros v H; cbn [nested] in H.
  - destruct H as [leaf [-> _]]. discriminate.
  - destruct H as [x [l [-> Hall]]]. cbn [leaves flat_map].
    inversion Hall; subst. intros E. apply app_eq_nil in E.
    now apply (IH x).
Qed.

Lemma accumulating_trailing items : forall result,
  fold_left (fun acc item => Accumulating.processWildcardGet item [] acc)
    items result
  = result ++ filter (fun item => negb (nullish item)) items.
Proof.
  induction items as [|item items IH]; intros result; cbn [fold_left filter].
  - now rewrite app_nil_r.
  - rewrite IH, processWildcardGet_acc_eq. cbn [indexOf walk].
    destruct item; cbn [nullish negb defined]; try reflexivity;
      now rewrite <- app_assoc.
Qed.

End GetVariants.

(** X10: for a path that ends in a plain segment the two variants of the
    resolver find the same leaves in the same order: what the accumulating
    variant pushes is the result of the index-based one with its array
    levels flattened, and the two [get] return the default in the same
    cases.  For the path [[]] alone they differ: the accumulating variant
    returns the elements that are not [null] or [undefined]. *)
Theorem get_variants_agree_on_leaves :
  (forall current keys result,
      last keys "[]" <> "[]" ->
      Accumulating.processWildcardGet current keys result
      = result ++ leaves (wildcards keys) (processWildcardGet current keys 0))
  /\ (forall fuel object p keys d,
        toPath fuel p = Some keys ->
        includes keys "[]" = true ->
        last keys "[]" <> "[]" ->
        exists v,
          get fuel object p d = Some v
          /\ Accumulating.get fuel object p d
             = Some (if defined (processWildcardGet object keys 0)
                     then VArr (leaves (wildcards keys) v) else v))
  /\ (forall items d,
        Accumulating.get 0 (VArr items) (PathArr ["[]"]) d
        = Some (match filter (fun item => negb (nullish item)) items with
                | [] => if defined d then d else VArr []
                | kept => VArr kept
                end)).
Proof.
  split; [|split].
  - intros current keys result Hlast.
    now apply (accumulating_leaves (List.length keys)).
  - intros fuel object p keys d Hp Hw Hlast.
    exists (get_keys object keys d). split; [now apply get_tokenized|].
    unfold Accumulating.get, Accumulating.get_keys, get_keys.
    rewrite Hp, Hw.
    rewrite (accumulating_leaves (List.length keys)) by (auto || lia).
    cbn [app].
    destruct (processWildcardGet_from_shape keys object) as [H|H];
      unfold processWildcardGet; cbn [skipn].
    + rewrite H, leaves_undefined. reflexivity.
    + pose proof (nested_leaves _ _ H) as Hne.
      assert (Hdef : defined (processWildcardGet_from keys object) = true
                     /\ (0 <? array_length
                                (processWildcardGet_from keys object))%nat
                        = true).
      { destruct (wildcards keys); cbn [nested] in H.
        - destruct H as [leaf [-> _]]. now split.
        - destruct H as [x [l [-> _]]]. now split. }
      destruct Hdef as [Hd Hl]. rewrite Hd, Hl. cbn [andb].
      destruct (leaves (wildcards keys) (processWildcardGet_from keys object));
        [contradiction | reflexivity].
  - intros items d. unfold Accumulating.get. cbn [toPath]. f_equal.
    unfold Accumulating.get_keys.
    cbn [includes existsb String.eqb Ascii.eqb Bool.eqb orb].
    rewrite processWildcardGet_acc_eq.
    cbn [nullish Accumulating.indexOf String.eqb Ascii.eqb Bool.eqb firstn
         Accumulating.walk Nat.add skipn].
    rewrite accumulating_trailing. cbn [app].
    destruct (filter (fun item => negb (nullish item)) items); reflexivity.
Qed.

Lemma get_variants_agree_on_leaves_witness :
  Accumulating.processWildcardGet testObject ["a"; "[]"; "b"; "[]"; "c"] []
  = [] ++ leaves (wildcards ["a"; "[]"; "b"; "[]"; "c"])
            (processWildcardGet testObject ["a"; "[]"; "b"; "[]"; "c"] 0).
Proof.
  apply (proj1 get_variants_agree_on_leaves testObject
           ["a"; "[]"; "b"; "[]"; "c"] []).
  discriminate.
Defined.

(* ================================================================= *)
(** ** pick: what a path stores *)

Section PickPaths.

Implicit Types (current object : value) (keys rest : list string)
  (result : list (string * value)).

Lemma pick_walk_dereference rest : forall current index,
  rest <> [] ->
  (snd (pick_walk current rest index) = index + List.length rest
   /\ fst (pick_walk current rest index) = dereference current rest)
  \/ (snd (pick_walk current rest index) < index + List.length rest
      /\ dereference current rest = VUndefined).
Proof.
  induction rest as [|key rest IH]; intros current index Hne;
    [contradiction|].
  cbn [pick_walk dereference List.length].
  destruct (nullish current); [right; cbn; split; [lia | reflexivity]|].
  destruct rest as [|key' rest'].
  - left. cbn. split; [lia | reflexivity].
  - destruct (IH (prop current key) (S index)) as [[H1 H2]|[H1 H2]];
      [discriminate| |]; [left | right]; cbn [List.length] in *;
      (split; [lia | assumption]).
Qed.

Lemma pick_assignment_plain object keys :
  includes keys "[]" = false ->
  pick_assignment object keys
  = match keys with
    | [] => None
    | _ :: _ =>
        if defined (dereference object keys)
        then Some (last keys "undefined", dereference object keys)
        else None
    end.
Proof.
  intros Hplain. unfold pick_assignment. rewrite Hplain.
  destruct keys as [|key keys']; [reflexivity|].
  set (keys := key :: keys') in *.
  destruct (pick_walk_dereference keys object 0) as [[H1 H2]|[H1 H2]];
    [discriminate| |];
    destruct (pick_walk object keys 0) as [current index];
    cbn [fst snd] in *.
  - subst index current. cbn [Nat.add]. rewrite Nat.eqb_refl.
    subst keys. cbn [List.length Nat.eqb negb andb]. reflexivity.
  - rewrite H2. cbn [defined].
    destruct (Nat.eqb_spec index (List.length keys)); [lia|].
    now rewrite andb_false_r.
Qed.

Lemma processWildcardPath_from_defined rest : forall current,
  defined (processWildcardPath_from rest current)
  = defined (processWildcardGet_from rest current).
Proof.
  induction rest as [|key rest IH]; intros current; [reflexivity|].
  cbn [processWildcardPath_from processWildcardGet_from].
  destruct (nullish current); [reflexivity|].
  destruct (negb (key =? "[]")%string).
  - destruct rest as [|key' rest'].
    + now destruct (defined (prop current key)).
    + rewrite <- (IH (prop current key)).
      now destruct (defined (processWildcardPath_from (key' :: rest')
                               (prop current key))).
  - destruct current; try reflexivity.
    rewrite !filter_defined_length.
    rewrite (filter_ext _ _ (fun item => IH item)).
    now destruct (0 <? _)%nat.
Qed.

Lemma processWildcardPath_from_root key rest current :
  (key =? "[]")%string = false ->
  processWildcardPath_from (key :: rest) current = VUndefined
  \/ exists sub,
      processWildcardPath_from (key :: rest) current = VObj [(key, sub)]
      /\ defined sub = true.
Proof.
  intros Hkey. cbn [processWildcardPath_from]. rewrite Hkey. cbn [negb].
  destruct (nullish current); [now left|].
  destruct rest as [|key' rest'].
  - destruct (defined (prop current key)) eqn:E; [right; eauto | now left].
  - destruct (defined (processWildcardPath_from (key' :: rest')
                         (prop current key))) eqn:E;
      [right; eauto | now left].
Qed.

Lemma obj_set_keys result key v :
  map fst (obj_set result key v)
  = if existsb (fun k => (k =? key)%string) (map fst result)
    then map fst result else map fst result ++ [key].
Proof.
  induction result as [|[k w] result IH]; [reflexivity|].
  cbn [obj_set map fst existsb].
  destruct (k =? key)%string; cbn [orb map fst]; [reflexivity|].
  rewrite IH. now destruct (existsb _ (map fst result)).
Qed.

Lemma existsb_eqb_In key (l : list string) :
  existsb (fun k => (k =? key)%string) l = true <-> In key l.
Proof.
  rewrite existsb_exists. split.
  - intros [k [Hin Hk]]. apply String.eqb_eq in Hk. now subst.
  - intros Hin. exists key. split; [exact Hin | apply String.eqb_refl].
Qed.

Lemma obj_set_NoDup result key v :
  NoDup (map fst result) -> NoDup (map fst (obj_set result key v)).
Proof.
  intros H. rewrite obj_set_keys.
  destruct (existsb _ (map fst result)) eqn:E; [exact H|].
  apply NoDup_app; [exact H | repeat constructor; auto |].
  intros k Hk [<-|[]].
  apply existsb_eqb_In in Hk. rewrite Hk in E. discriminate.
Qed.

Lemma obj_set_length result key v :
  List.length (obj_set result key v) <= S (List.length result).
Proof.
  rewrite <- !(length_map fst), obj_set_keys.
  destruct (existsb _ (map fst result)); [lia|].
  rewrite length_app. cbn. lia.
Qed.

Lemma obj_set_In_key result key v k :
  In k (map fst (obj_set result key v)) -> k = key \/ In k (map fst result).
Proof.
  rewrite obj_set_keys. destruct (existsb _ (map fst result)); [auto|].
  rewrite in_app_iff. intros [H|[<-|[]]]; auto.
Qed.

Lemma pick_forEach_keys fuel object props : forall result result',
  pick_forEach fuel object props result = Some result' ->
  NoDup (map fst result) ->
  NoDup (map fst result')
  /\ List.length result' <= List.length result + List.length props
  /\ (forall k,
        In k (map fst result') ->
        In k (map fst result)
        \/ exists p keys v,
            In p props /\ toPath fuel p = Some keys
            /\ pick_assignment object keys = Some (k, v)).
Proof.
  induction props as [|p props IH]; intros result result' H Hnd;
    cbn [pick_forEach] in H.
  - inversion H; subst. repeat split; auto. cbn. lia.
  - destruct (toPath fuel p) as [keys|] eqn:Hp; [|discriminate].
    apply IH in H.
    + destruct H as [H1 [H2 H3]]. split; [exact H1|]. split.
      * unfold pick_path in H2. cbn [List.length].
        destruct (pick_assignment object keys) as [[k v]|]; [|lia].
        pose proof (obj_set_length result k v). lia.
      * intros k Hk. destruct (H3 k Hk) as [Hin|[q [ks [v [Hq1 Hq2]]]]].
        -- unfold pick_path in Hin.
           destruct (pick_assignment object keys) as [[k' v']|] eqn:Ha;
             [|now left].
           apply obj_set_In_key in Hin. destruct Hin as [->|Hin];
             [|now left].
           right. exists p, keys, v'. repeat split; auto. now left.
        -- right. exists q, ks, v. repeat split; try tauto. now right.
    + unfold pick_path.
      destruct (pick_assignment object keys) as [[k v]|]; [|exact Hnd].
      now apply obj_set_NoDup.
Qed.

End PickPaths.

(** X11: for a path without wildcard, [pick] stores the value that the
    walk reaches under the last segment of the path alone, without the
    containers on the way, and stores nothing when the walk reaches
    [undefined] or breaks off; a leaf that is [null] is stored, whereas
    [get] replaces it by the default. *)
Theorem pick_plain_path_stores_leaf :
  forall fuel object s keys d,
    nullish object = false ->
    toPath fuel (PathStr s) = Some keys ->
    keys <> [] ->
    includes keys "[]" = false ->
    pick fuel object (PathStr s)
    = Some (if defined (dereference object keys)
            then [(last keys "undefined", dereference object keys)]
            else [])
    /\ get fuel object (PathStr s) d
       = Some (if nullish (dereference object keys) then d
               else dereference object keys).
Proof.
  intros fuel object s keys d Hobj Hp Hne Hplain. split.
  - unfold pick. rewrite Hobj. cbn [pick_props pick_forEach]. rewrite Hp.
    unfold pick_path. rewrite (pick_assignment_plain _ _ Hplain).
    destruct keys as [|k keys']; [contradiction|].
    now destruct (defined (dereference object (k :: keys'))).
  - now apply get_plain_path.
Qed.

Lemma pick_plain_path_stores_leaf_witness :
  pick 4 (VObj [("a", VArr [VObj [("b", VNull)]])]) (PathStr "['a'][0]['b']")
  = Some [("b", VNull)]
  /\ get 4 (VObj [("a", VArr [VObj [("b", VNull)]])])
       (PathStr "['a'][0]['b']") (VStr "none")
     = Some (VStr "none").
Proof.
  apply (pick_plain_path_stores_leaf 4
           (VObj [("a", VArr [VObj [("b", VNull)]])]) "['a'][0]['b']"
           ["a"; "0"; "b"] (VStr "none"));
    try reflexivity; discriminate.
Defined.

(** X12: for a path with a wildcard, [pick] always stores one property,
    under the first segment of the path, also when nothing resolves: its
    value is then [undefined].  The value is defined exactly when the
    resolver of [get] has a result for the same path; and when the first
    segment is a plain key, a defined value is a record that holds this
    same key again, around the rebuilt subtree. *)
Theorem pick_wildcard_path_stores_root :
  forall fuel object s keys,
    nullish object = false ->
    toPath fuel (PathStr s) = Some keys ->
    includes keys "[]" = true ->
    exists v,
      pick fuel object (PathStr s) = Some [(hd "undefined" keys, v)]
      /\ defined v = defined (processWildcardGet object keys 0)
      /\ (hd "undefined" keys <> "[]" ->
          v = VUndefined
          \/ exists sub,
              v = VObj [(hd "undefined" keys, sub)] /\ defined sub = true).
Proof.
  intros fuel object s keys Hobj Hp Hw.
  exists (processWildcardPath object keys 0). split; [|split].
  - unfold pick. rewrite Hobj. cbn [pick_props pick_forEach]. rewrite Hp.
    unfold pick_path, pick_assignment. now rewrite Hw.
  - apply processWildcardPath_from_defined.
  - intros Hroot. destruct keys as [|key rest]; [discriminate|].
    cbn [hd] in *. apply processWildcardPath_from_root.
    now apply String.eqb_neq.
Qed.

Lemma pick_wildcard_path_stores_root_witness :
  exists v,
    pick 4 nonArraySource (PathStr "['a'][]['b']")
    = Some [(hd "undefined" ["a"; "[]"; "b"], v)]
    /\ defined v = defined (processWildcardGet nonArraySource
                              ["a"; "[]"; "b"] 0)
    /\ (hd "undefined" ["a"; "[]"; "b"] <> "[]" ->
        v = VUndefined
        \/ exists sub,
            v = VObj [(hd "undefined" ["a"; "[]"; "b"], sub)]
            /\ defined sub = true).
Proof.
  apply (pick_wildcard_path_stores_root 4 nonArraySource "['a'][]['b']"
           ["a"; "[]"; "b"]); reflexivity.
Defined.

(** X13: the result of [pick] never holds a key twice, has at most one
    property per path, and every key in it was assigned by one of the
    paths (its first segment for a path with a wildcard, its last segment
    otherwise). *)
Theorem pick_result_keys :
  forall fuel object paths result,
    pick fuel object paths = Some result ->
    NoDup (map fst result)
    /\ List.length result <= List.length (pick_props paths)
    /\ (forall k,
          In k (map fst result) ->
          exists p keys v,
            In p (pick_props paths) /\ toPath fuel p = Some keys
            /\ pick_assignment object keys = Some (k, v)
            /\ k = if includes keys "[]" then hd "undefined" keys
                   else last keys "undefined").
Proof.
  intros fuel object paths result H. unfold pick in H.
  destruct (nullish object).
  - inversion H; subst. split; [constructor|]. split; [cbn; lia|].
    intros k [].
  - apply pick_forEach_keys in H; [|constructor].
    destruct H as [H1 [H2 H3]]. repeat split; auto.
    intros k Hk. destruct (H3 k Hk) as [[]|[p [keys [v [Hin [Hp Ha]]]]]].
    exists p, keys, v. repeat split; auto.
    unfold pick_assignment in Ha. destruct (includes keys "[]").
    + now inversion Ha.
    + destruct (pick_walk object keys 0) as [c i].
      destruct (negb (i =? 0)%nat && (i =? List.length keys)%nat
                && defined c); [now inversion Ha | discriminate].
Qed.

Lemma pick_result_keys_witness :
  NoDup (map fst [("c", VNum 42); ("x", VNum 100)])
  /\ List.length [("c", VNum 42); ("x", VNum 100)]
     <= List.length
          (pick_props (PathArr ["['a'][0]['b'][0]['c']"; "['x']"; "['x']"])).
Proof.
  pose proof (pick_result_keys 6 testObject
                (PathArr ["['a'][0]['b'][0]['c']"; "['x']"; "['x']"])
                [("c", VNum 42); ("x", VNum 100)] eq_refl) as H.
  split; [exact (proj1 H) | exact (proj1 (proj2 H))].
Defined.

(* ================================================================= *)
(** ** superPick and processPaths *)

Section ProcessPaths.

Implicit Types (current object : value) (pathArray : list (list string)).

Lemma longest_filter (f : list string -> bool) pathArray :
  longest (filter f pathArray) <= longest pathArray.
Proof.
  induction pathArray as [|p pathArray IH]; [reflexivity|].
  cbn [filter longest fold_right]. fold (longest pathArray).
  destruct (f p); cbn [longest fold_right];
    fold (longest (filter f pathArray)); lia.
Qed.

Lemma longest_valid pathArray index :
  filter (fun p => (index <? List.length p)%nat) pathArray <> [] ->
  index < longest pathArray.
Proof.
  induction pathArray as [|p pathArray IH]; [contradiction|].
  cbn [filter longest fold_right]. fold (longest pathArray).
  destruct (Nat.ltb_spec index (List.length p)) as [Hlt|Hge]; [lia|].
  intros Hne. specialize (IH Hne). lia.
Qed.

(** The bound of [processPaths_bounded] is never reached. *)
Lemma processPaths_bounded_enough n : forall m current pathArray index,
  longest pathArray - index < n ->
  longest pathArray - index < m ->
  processPaths_bounded n current pathArray index
  = processPaths_bounded m current pathArray index.
Proof.
  induction n as [|n IH]; intros m current pathArray index Hn Hm; [lia|].
  destruct m as [|m]; [lia|].
  cbn [processPaths_bounded].
  destruct (nullish current); [reflexivity|]. cbv zeta.
  set (validPaths := filter (fun p => (index <? List.length p)%nat)
                       pathArray).
  destruct (Nat.eqb_spec (List.length validPaths) 0) as [E|E];
    [reflexivity|].
  assert (Hidx : index < longest pathArray).
  { apply longest_valid. fold validPaths. now destruct validPaths. }
  assert (Hsub : forall f g,
             longest (filter f (filter g pathArray)) - (index + 1) < n
             /\ longest (filter f (filter g pathArray)) - (index + 1) < m).
  { intros f g.
    pose proof (longest_filter f (filter g pathArray)).
    pose proof (longest_filter g pathArray). lia. }
  destruct ((0 <? List.length (filter _ validPaths))%nat && isArray current).
  - destruct current; try reflexivity.
    erewrite map_ext; [reflexivity|].
    intros item. apply IH; apply Hsub.
  - destruct (List.length (filter _ validPaths) =? 0)%nat; [reflexivity|].
    match goal with
    | |- (if (0 <? List.length (fold_left ?F ?l []))%nat then _ else _)
         = (if (0 <? List.length (fold_left ?G _ []))%nat then _ else _) =>
        rewrite (fold_left_pointwise F G l); [reflexivity|]
    end.
    intros result p. cbv beta zeta.
    destruct (index =? List.length p - 1)%nat; [reflexivity|].
    rewrite (IH m); [reflexivity | apply Hsub | apply Hsub].
Qed.

(** [processPaths] obeys the recursion of the source. *)
Lemma processPaths_eq current pathArray index :
  processPaths current pathArray index
  = if nullish current then VUndefined
    else
      let validPaths :=
        filter (fun p => (index <? List.length p)%nat) pathArray in
      if (List.length validPaths =? 0)%nat then VUndefined
      else
        let wildcardPaths :=
          filter (fun p => key_is p index "[]") validPaths in
        if (0 <? List.length wildcardPaths)%nat && isArray current then
          match current with
          | VArr items =>
              let result :=
                filter defined
                  (map (fun item =>
                          processPaths item wildcardPaths (index + 1))
                     items) in
              if (0 <? List.length result)%nat then VArr result
              else VUndefined
          | _ => VUndefined
          end
        else
          let matchingPaths :=
            filter (fun p =>
                      negb (key_is p index "[]")
                      && (defined (prop current (nth index p ""))
                          || (index =? List.length p - 1)%nat))
              validPaths in
          if (List.length matchingPaths =? 0)%nat then VUndefined
          else
            let result :=
              fold_left
                (fun result p =>
                   let key := nth index p "" in
                   if (index =? List.length p - 1)%nat then
                     if defined (prop current key)
                     then obj_set result key (prop current key)
                     else result
                   else
                     let subResult :=
                       processPaths (prop current key) matchingPaths
                         (index + 1) in
                     if defined subResult
                     then obj_set result key subResult
                     else result)
                matchingPaths [] in
            if (0 <? List.length result)%nat then VObj result
            else VUndefined.
Proof.
  unfold processPaths at 1. cbn [processPaths_bounded].
  destruct (nullish current); [reflexivity|]. cbv zeta.
  set (validPaths := filter (fun p => (index <? List.length p)%nat)
                       pathArray).
  destruct (Nat.eqb_spec (List.length validPaths) 0) as [E|E];
    [reflexivity|].
  assert (Hidx : index < longest pathArray).
  { apply longest_valid. fold validPaths. now destruct validPaths. }
  assert (Hsub : forall f g,
             longest (filter f (filter g pathArray)) - (index + 1)
             < longest pathArray - index).
  { intros f g.
    pose proof (longest_filter f (filter g pathArray)).
    pose proof (longest_filter g pathArray). lia. }
  destruct ((0 <? List.length (filter _ validPaths))%nat && isArray current).
  - destruct current; try reflexivity.
    erewrite map_ext; [reflexivity|].
    intros item. unfold processPaths.
    apply processPaths_bounded_enough; [apply Hsub | lia].
  - destruct (List.length (filter _ validPaths) =? 0)%nat; [reflexivity|].
    match goal with
    | |- (if (0 <? List.length (fold_left ?F ?l []))%nat then _ else _)
         = (if (0 <? List.length (fold_left ?G _ []))%nat then _ else _) =>
        rewrite (fold_left_pointwise F G l); [reflexivity|]
    end.
    intros result p. cbv beta zeta.
    destruct (index =? List.length p - 1)%nat; [reflexivity|].
    unfold processPaths.
    rewrite (processPaths_bounded_enough _
               (S (longest (filter
                              (fun p0 =>
                                 negb (key_is p0 index "[]")
                                 && (defined (prop current (nth index p0 ""))
                                     || (index =? List.length p0 - 1)%nat))
                              validPaths) - (index + 1))));
      [reflexivity | apply Hsub | lia].
Qed.

Lemma processPaths_container current pathArray index :
  processPaths current pathArray index = VUndefined
  \/ (exists x l, processPaths current pathArray index = VArr (x :: l))
  \/ (exists f l, processPaths current pathArray index = VObj (f :: l)).
Proof.
  rewrite processPaths_eq.
  destruct (nullish current); [now left|]. cbv zeta.
  destruct (List.length _ =? 0)%nat; [now left|].
  destruct (_ && isArray current).
  - destruct current; try (now left).
    destruct (filter defined _) as [|x l]; [now left|].
    right. left. now exists x, l.
  - destruct (List.length _ =? 0)%nat; [now left|].
    destruct (fold_left _ _ []) as [|f l]; [now left|].
    right. right. now exists f, l.
Qed.

Section SuperPickKeys.

Variable lodash_toPath : path -> list string.

Lemma superPick_fold (value_of : string -> value) keys : forall result,
  let final :=
    fold_left (fun result key => obj_set result key (value_of key)) keys
      result in
  (forall key, In key keys -> obj_get key final = Some (value_of key))
  /\ (forall key, ~ In key keys -> obj_get key final = obj_get key result)
  /\ (forall key, In key (map fst final) ->
                  In key (map fst result) \/ In key keys).
Proof.
  induction keys as [|k keys IH]; intros result; cbn [fold_left].
  - repeat split; auto. intros key [].
  - specialize (IH (obj_set result k (value_of k))). cbv zeta in IH.
    destruct IH as [IH1 [IH2 IH3]]. repeat split.
    + intros key [<-|Hin].
      * destruct (in_dec string_dec k keys) as [Hk|Hk]; [now apply IH1|].
        rewrite IH2 by assumption. apply obj_get_set_same.
      * now apply IH1.
    + intros key Hnot. rewrite IH2 by (intros H; apply Hnot; now right).
      apply obj_get_set_other. intros ->. apply Hnot. now left.
    + intros key Hin. apply IH3 in Hin. destruct Hin as [Hin|Hin].
      * apply obj_set_In_key in Hin. destruct Hin as [->|Hin]; auto.
        right. now left.
      * right. now right.
Qed.

Lemma superPick_unfold object paths :
  nullish object = false ->
  superPick lodash_toPath object paths
  = fold_left
      (fun result key =>
         obj_set result key
           (if superPick_matches object
                 (map (superToPath lodash_toPath) (pick_props paths)) key
            then processPaths (prop object key)
                   (map (superToPath lodash_toPath) (pick_props paths)) 0
            else VUndefined))
      (own_keys object) [].
Proof.
  intros H. unfold superPick. rewrite H. cbv zeta.
  apply fold_left_pointwise. intros result key.
  now destruct (superPick_matches _ _ key).
Qed.

Lemma superPick_lookup object paths key :
  nullish object = false ->
  In key (own_keys object) ->
  obj_get key (superPick lodash_toPath object paths)
  = Some (if superPick_matches object
                (map (superToPath lodash_toPath) (pick_props paths)) key
          then processPaths (prop object key)
                 (map (superToPath lodash_toPath) (pick_props paths)) 0
          else VUndefined).
Proof.
  intros H Hin. rewrite (superPick_unfold object paths H).
  pose proof (superPick_fold
                (fun key =>
                   if superPick_matches object
                        (map (superToPath lodash_toPath) (pick_props paths))
                        key
                   then processPaths (prop object key)
                          (map (superToPath lodash_toPath)
                             (pick_props paths)) 0
                   else VUndefined) (own_keys object) []) as Hf.
  cbv zeta in Hf. now apply (proj1 Hf).
Qed.

End SuperPickKeys.

End ProcessPaths.

(** X14: [superPick] returns a property for every own key of the source
    and for no other key: the value is what [processPaths] rebuilds for
    the keys that some path names with its first segment (or with a
    leading wildcard, over an array), and [undefined] for all the others,
    which are kept all the same; a source that is [null] or [undefined]
    gives the empty object. *)
Theorem superPick_keeps_every_own_key :
  forall lodash_toPath object paths,
    (nullish object = true -> superPick lodash_toPath object paths = [])
    /\ (nullish object = false ->
        let pathArray :=
          map (superToPath lodash_toPath) (pick_props paths) in
        (forall key,
            In key (own_keys object) ->
            obj_get key (superPick lodash_toPath object paths)
            = Some (if superPick_matches object pathArray key
                    then processPaths (prop object key) pathArray 0
                    else VUndefined))
        /\ (forall key,
              In key (map fst (superPick lodash_toPath object paths)) ->
              In key (own_keys object))).
Proof.
  intros L object paths. split.
  - intros H. unfold superPick. now rewrite H.
  - intros H pathArray. rewrite (superPick_unfold L object paths H).
    fold pathArray.
    pose proof (superPick_fold
                  (fun key =>
                     if superPick_matches object pathArray key
                     then processPaths (prop object key) pathArray 0
                     else VUndefined) (own_keys object) []) as Hf.
    cbv zeta in Hf. destruct Hf as [H1 [_ H3]]. split; [exact H1|].
    intros key Hin. destruct (H3 key Hin) as [[]|Hk]. exact Hk.
Qed.

Lemma superPick_keeps_every_own_key_witness :
  obj_get "x"
    (superPick (fun p => match p with
                         | PathStr s => [s]
                         | PathArr l => l
                         | _ => []
                         end) testObject (PathStr "a"))
  = Some VUndefined.
Proof.
  apply (proj1 (proj2 (superPick_keeps_every_own_key
                         (fun p => match p with
                                   | PathStr s => [s]
                                   | PathArr l => l
                                   | _ => []
                                   end) testObject (PathStr "a"))
                  eq_refl) "x").
  cbn. auto.
Defined.

(** X15: [superPick] looks for the first segment of a path twice: it
    selects the top-level key with it and then hands the value under that
    key to [processPaths] with index 0 again.  So for one path that starts
    with the plain key [k], the property [k] of the result is defined only
    if the source holds [k] inside [k]; it is [undefined] for a source
    such as [{a: {b: 1}}] and the path [a.b]. *)
Theorem superPick_first_segment_twice :
  forall lodash_toPath object s k rest,
    nullish object = false ->
    superToPath lodash_toPath (PathStr s) = k :: rest ->
    k <> "[]" ->
    In k (own_keys object) ->
    exists v,
      obj_get k (superPick lodash_toPath object (PathStr s)) = Some v
      /\ (defined v = true -> defined (prop (prop object k) k) = true).
Proof.
  intros L object s k rest Hobj Hs Hk Hin.
  rewrite (superPick_lookup L object (PathStr s) k Hobj Hin).
  eexists. split; [reflexivity|].
  cbn [pick_props map]. rewrite Hs.
  destruct (superPick_matches object [k :: rest] k); [|discriminate].
  rewrite processPaths_eq.
  destruct (nullish (prop object k)); [discriminate|]. cbv zeta.
  cbn [filter List.length Nat.ltb Nat.leb Nat.eqb key_is nth_error nth].
  apply String.eqb_neq in Hk. rewrite Hk.
  cbn [filter List.length Nat.ltb Nat.leb andb negb].
  destruct (defined (prop (prop object k) k)) eqn:Hd; [reflexivity|].
  cbn [orb]. destruct rest as [|k' rest']; cbn [List.length Nat.sub Nat.eqb].
  - cbn [filter List.length Nat.eqb fold_left nth]. rewrite Hd. discriminate.
  - cbn [filter List.length Nat.eqb]. discriminate.
Qed.

Lemma superPick_first_segment_twice_witness :
  exists v,
    obj_get "a"
      (superPick (fun p => match p with
                           | PathStr "a.b" => ["a"; "b"]
                           | _ => []
                           end)
         (VObj [("a", VObj [("b", VNum 1)])]) (PathStr "a.b")) = Some v
    /\ (defined v = true ->
        defined (prop (prop (VObj [("a", VObj [("b", VNum 1)])]) "a") "a")
        = true).
Proof.
  apply (superPick_first_segment_twice
           (fun p => match p with
                     | PathStr "a.b" => ["a"; "b"]
                     | _ => []
                     end)
           (VObj [("a", VObj [("b", VNum 1)])]) "a.b" "a" ["b"]).
  - reflexivity.
  - reflexivity.
  - discriminate.
  - cbn. auto.
Defined.

(** X16: [processPaths] never returns an empty container: its result is
    [undefined], a non-empty array or a record with at least one
    property. *)
Theorem processPaths_never_empty :
  forall current pathArray index,
    processPaths current pathArray index = VUndefined
    \/ (exists x l, processPaths current pathArray index = VArr (x :: l))
    \/ (exists f l, processPaths current pathArray index = VObj (f :: l)).
Proof. exact processPaths_container. Qed.



(** X18: [superToPath] is idempotent on its own output: when [toPath] of
    lodash returns an array of keys as it is, giving the result of
    [superToPath] back to it as an array yields the same segments. *)
Theorem superToPath_idempotent_on_output :
  forall lodash_toPath,
    (forall keys, lodash_toPath (PathArr keys) = keys) ->
    forall value,
      superToPath lodash_toPath (PathArr (superToPath lodash_toPath value))
      = superToPath lodash_toPath value.
Proof.
  intros L HL value. cbn [superToPath]. rewrite HL.
  apply combineEmpty_no_empty, superToPath_no_empty.
Qed.

Lemma superToPath_idempotent_on_output_witness :
  superToPath (fun p => match p with
                        | PathStr s => [s]
                        | PathArr l => l
                        | _ => []
                        end)
    (PathArr (superToPath (fun p => match p with
                                    | PathStr s => [s]
                                    | PathArr l => l
                                    | _ => []
                                    end) (PathArr ["a"; ""; ""; "c"])))
  = superToPath (fun p => match p with
                          | PathStr s => [s]
                          | PathArr l => l
                          | _ => []
                          end) (PathArr ["a"; ""; ""; "c"]).
Proof.
  apply (superToPath_idempotent_on_output
           (fun p => match p with
                     | PathStr s => [s]
                     | PathArr l => l
                     | _ => []
                     end)).
  reflexivity.
Defined.
